(** * datos.py: the game-catalogue scraper, embedded and verified

    The development follows [src/datos.py] top to bottom: the string
    utilities ([money_to_float], [normalize_game_name]), the retrying
    [fetch], the per-source orchestrator [scrape_site] and the run
    controller [run].

    Python values are modelled as follows.
    - [str] is a list of Unicode code points ([pystr]).
    - [set] of [str] is a [gset pystr].
    - A [float] obtained from a decimal literal is the rational that the
      literal denotes (CPython rounds it to the nearest double; two equal
      decimals give the same double).  Clock readings are rationals too.
    - An [int] that the code only counts with ([target], indices,
      counters) is a [nat]; [concurrency] and [timeout], which come from
      the command line and may be zero or negative, are in [Z].
    - The network, the clock and the random generator are oracles
      collected in a [World]; the code is a function of its arguments and
      of the world.
    - The standard output takes every message: the [print] calls then
      have no effect that is observed here and are left out of
      [scrape_site] and [run].  The module [Console] has [scrape_site]
      with its [print] calls, over a standard output that may refuse a
      text. *)

From Stdlib Require Import ZArith NArith QArith List String Ascii Lia DecimalNat.
From stdpp Require Import base gmap sets list.

Set Default Proof Using "Type".

(** ** Python strings *)

Abbreviation pystr := (list N).

Fixpoint py (s : string) : pystr :=
  match s with
  | EmptyString => []
  | String a s' => N_of_ascii a :: py s'
  end.

(** [str(n)] for a non-negative [int]: decimal digits, no leading zero. *)
Definition digit_cp (d : N) : N := (48 + d)%N.

Fixpoint uint_digits (u : Decimal.uint) : pystr :=
  match u with
  | Decimal.Nil => []
  | Decimal.D0 u' => digit_cp 0 :: uint_digits u'
  | Decimal.D1 u' => digit_cp 1 :: uint_digits u'
  | Decimal.D2 u' => digit_cp 2 :: uint_digits u'
  | Decimal.D3 u' => digit_cp 3 :: uint_digits u'
  | Decimal.D4 u' => digit_cp 4 :: uint_digits u'
  | Decimal.D5 u' => digit_cp 5 :: uint_digits u'
  | Decimal.D6 u' => digit_cp 6 :: uint_digits u'
  | Decimal.D7 u' => digit_cp 7 :: uint_digits u'
  | Decimal.D8 u' => digit_cp 8 :: uint_digits u'
  | Decimal.D9 u' => digit_cp 9 :: uint_digits u'
  end.

Definition str_of_nat (n : nat) : pystr := uint_digits (Nat.to_uint n).

(** The characters of [str(n)]. *)
Definition decimal_digits : pystr :=
  [48; 49; 50; 51; 52; 53; 54; 55; 56; 57]%N.

Definition is_digit (c : N) : bool := ((48 <=? c) && (c <=? 57))%N.

(** [c in s] for a one-character [c]. *)
Definition contains (c : N) (s : pystr) : bool := existsb (N.eqb c) s.

(** [s.replace(a, b)] for a one-character [a]. *)
Definition replace_char (a : N) (b : pystr) (s : pystr) : pystr :=
  flat_map (fun c => if (c =? a)%N then b else [c]) s.

(** Whitespace as [re]'s [\s] on [str] patterns and [str.strip()] see it
    (CPython's [Py_UNICODE_ISSPACE]). *)
Definition py_isspace (c : N) : bool :=
  (((9 <=? c) && (c <=? 13)) || ((28 <=? c) && (c <=? 32))
   || (c =? 133) || (c =? 160) || (c =? 5760)
   || ((8192 <=? c) && (c <=? 8202))
   || (c =? 8232) || (c =? 8233) || (c =? 8239) || (c =? 8287)
   || (c =? 12288))%N.

Fixpoint lstrip (s : pystr) : pystr :=
  match s with
  | [] => []
  | c :: s' => if py_isspace c then lstrip s' else s
  end.

Definition rstrip (s : pystr) : pystr := rev (lstrip (rev s)).

Definition strip (s : pystr) : pystr := rstrip (lstrip s).

(** ASCII case mapping, the part of [str.lower] / [str.upper] that is
    fixed by the language on every platform. *)
Definition ascii_lower_cp (c : N) : N :=
  if ((65 <=? c) && (c <=? 90))%N then (c + 32)%N else c.

Definition ascii_upper_cp (c : N) : N :=
  if ((97 <=? c) && (c <=? 122))%N then (c - 32)%N else c.

Definition is_ascii (c : N) : bool := (c <? 128)%N.

(** Code points of the copyright, registered and trade-mark signs. *)
Definition cp_copyright : N := 169.
Definition cp_registered : N := 174.
Definition cp_trademark : N := 8482.

(** ASCII characters and the three caseless signs the normaliser knows. *)
Definition plain_cp (c : N) : bool :=
  (is_ascii c || (c =? cp_copyright) || (c =? cp_registered)
   || (c =? cp_trademark))%N.

(** [str.lower] and [str.upper] are library calls: full Unicode case
    mapping (context-sensitive for the Greek final sigma).  They are an
    interface with the laws the proofs need.  [lower_stable c] says that
    [c] is a code point that lower-casing leaves alone in every context;
    every code point that [str.lower] produces is such a code point. *)
Class PyCase := {
  lower : pystr -> pystr;
  upper : pystr -> pystr;
  lower_stable : N -> Prop;
  lower_fixes : forall s, Forall lower_stable s -> lower s = s;
  lower_lands : forall s, Forall lower_stable (lower s);
  lower_stable_space : lower_stable 32%N;
  lower_plain : forall s,
    forallb plain_cp s = true -> lower s = map ascii_lower_cp s;
  upper_ascii : forall s,
    forallb is_ascii s = true -> upper s = map ascii_upper_cp s
}.

(** The same interface on strings without cased non-ASCII letters, where
    it can be run. *)
Definition ascii_lower (s : pystr) : pystr := map ascii_lower_cp s.
Definition ascii_upper (s : pystr) : pystr := map ascii_upper_cp s.
Definition not_ascii_capital (c : N) : Prop :=
  ((65 <=? c) && (c <=? 90))%N = false.

(** ** money_to_float *)

(** [re.sub(r"[^0-9\.,]", "", txt)] *)
Definition keep_price_chars (txt : pystr) : pystr :=
  List.filter (fun c => is_digit c || (c =? 46)%N || (c =? 44)%N) txt.

Fixpoint digits_value (acc : Z) (s : pystr) : option Z :=
  match s with
  | [] => Some acc
  | c :: s' =>
      if is_digit c then digits_value (10 * acc + Z.of_N (c - 48)) s'
      else None
  end.

Fixpoint split_dot (s : pystr) : pystr * option pystr :=
  match s with
  | [] => ([], None)
  | c :: s' =>
      if (c =? 46)%N then ([], Some s')
      else let '(a, b) := split_dot s' in (c :: a, b)
  end.

(** [float(s)] on a string over digits, dot and comma: [Some] of the
    decimal value, [None] where CPython raises [ValueError] (no digit, a
    second dot, a comma). *)
Definition py_float (s : pystr) : option Q :=
  let '(ip, fp) := split_dot s in
  let fr := default [] fp in
  match ip ++ fr with
  | [] => None
  | ds =>
      match digits_value 0 ds with
      | Some m => Some (Qmake m (Z.to_pos (10 ^ Z.of_nat (length fr))))
      | None => None
      end
  end.

(** The [if "," in clean and "." in clean: ... elif "," in clean: ...]
    step: with both separators every comma is deleted, with commas only
    every comma becomes a dot. *)
Definition resolve_separators (clean : pystr) : pystr :=
  if contains 44 clean && contains 46 clean
  then replace_char 44 [] clean
  else if contains 44 clean
       then replace_char 44 [46%N] clean
       else clean.

Definition money_to_float (txt : pystr) : option Q :=
  match txt with
  | [] => None
  | _ =>
      let clean := keep_price_chars txt in
      match clean with
      | [] => None
      | _ =>
          let clean := resolve_separators clean in
          py_float clean
      end
  end.

(** A parsed amount equals a decimal. *)
Definition returns_amount (r : option Q) (q : Q) : Prop :=
  match r with
  | Some x => Qeq x q
  | None => False
  end.

(** ** normalize_game_name *)

(** The character class of [re.sub(r"[™®©:'-]", "", s)]. *)
Definition is_name_symbol (c : N) : bool :=
  ((c =? cp_trademark) || (c =? cp_registered) || (c =? cp_copyright)
   || (c =? 58) || (c =? 39) || (c =? 45))%N.

Definition remove_name_symbols (s : pystr) : pystr :=
  List.filter (fun c => negb (is_name_symbol c)) s.

(** [re.sub(r"\s+", " ", s)]: every maximal run of whitespace becomes one
    space.  A whitespace character followed by whitespace is dropped; the
    last one of a run is written as a space. *)
Fixpoint collapse_ws (s : pystr) : pystr :=
  match s with
  | [] => []
  | c :: s' =>
      if py_isspace c then
        match s' with
        | [] => [32%N]
        | c' :: _ => if py_isspace c' then collapse_ws s'
                     else 32%N :: collapse_ws s'
        end
      else c :: collapse_ws s'
  end.

(** Whitespace occurs only as single spaces. *)
Fixpoint collapsed (s : pystr) : bool :=
  match s with
  | [] => true
  | c :: s' =>
      if py_isspace c then
        (c =? 32)%N
        && match s' with
           | [] => true
           | c' :: _ => negb (py_isspace c')
           end
        && collapsed s'
      else collapsed s'
  end.

Section Normalize.
Context `{PyCase}.

Definition normalize_game_name (name : pystr) : pystr :=
  match name with
  | [] => []
  | _ =>
      let normalized := lower name in
      let normalized := remove_name_symbols normalized in
      let normalized := collapse_ws normalized in
      strip normalized
  end.
End Normalize.

(** ** Results of effectful code

    A Python call either returns, or raises an exception.  [Exn] stands for
    the instances of [Exception], which is what [except Exception] catches;
    [KeyboardInterrupt] and task cancellation are outside the model.  The
    loops that no [range] bounds (the [while] of the harvesting phase and
    the [while True] searches for a free synthetic name) are modelled with
    fuel; [Starved] is the model running out of it, and is proved
    unreachable. *)

Inductive Exn :=
| TimeoutError
| ValueError
| OtherException.

Inductive Res (A : Type) :=
| Ret (a : A)
| Raise (e : Exn)
| Starved.
Arguments Ret {A} a.
Arguments Raise {A} e.
Arguments Starved {A}.

(** ** fetch *)

(** What one [session.get] does: it raises, or it hands over a response
    with a status whose body can be read or whose read raises. *)
Inductive Attempt :=
| Responded (status : Z) (text : Exn + pystr)
| Failed (e : Exn).

Inductive FetchEvent :=
| Get (url : pystr)
| Sleep (seconds : Z).

(** Control flow of one pass through the loop body. *)
Inductive Flow (A : Type) :=
| Returns (a : A)
| FallsThrough.
Arguments Returns {A} a.
Arguments FallsThrough {A}.

Section Fetch.
(** [net url k] is the outcome of the [k]-th request of this call. *)
Variable net : pystr -> nat -> Attempt.

(** The body of the [try]. *)
Definition fetch_try (url : pystr) (attempt : nat)
  : Res (Flow pystr) * list FetchEvent :=
  match net url attempt with
  | Responded status text =>
      if (status =? 200)%Z then
        match text with
        | inr html => (Ret (Returns html), [Get url])
        | inl e => (Raise e, [Get url])
        end
      else if (status =? 429)%Z then
        (Ret FallsThrough, [Get url; Sleep (3 * (Z.of_nat attempt + 1))])
      else
        (Ret FallsThrough, [Get url; Sleep 1])
  | Failed e => (Raise e, [Get url])
  end.

(** The [try] with its two [except] clauses. *)
Definition fetch_attempt (url : pystr) (attempt : nat)
  : Res (Flow pystr) * list FetchEvent :=
  match fetch_try url attempt with
  | (Raise TimeoutError, log) => (Ret FallsThrough, log ++ [Sleep 2])
  | (Raise _, log) => (Ret FallsThrough, log ++ [Sleep 1])
  | r => r
  end.

Fixpoint fetch_loop (url : pystr) (attempts : list nat)
  : Res (option pystr) * list FetchEvent :=
  match attempts with
  | [] => (Ret None, [])
  | attempt :: rest =>
      match fetch_attempt url attempt with
      | (Ret (Returns html), log) => (Ret (Some html), log)
      | (Ret FallsThrough, log) =>
          let '(r, log') := fetch_loop url rest in (r, log ++ log')
      | (Raise e, log) => (Raise e, log)
      | (Starved, log) => (Starved, log)
      end
  end.

Definition fetch (url : pystr) : Res (option pystr) * list FetchEvent :=
  fetch_loop url (seq 0 5).

Definition is_get (ev : FetchEvent) : bool :=
  match ev with Get _ => true | Sleep _ => false end.

Definition sleeps (log : list FetchEvent) : list Z :=
  omap (fun ev => match ev with Sleep s => Some s | Get _ => None end) log.

(** The pause the retry policy prescribes after a failed attempt. *)
Definition pause_after (attempt : nat) (a : Attempt) : Z :=
  match a with
  | Responded status text =>
      if (status =? 200)%Z then
        match text with
        | inl TimeoutError => 2
        | _ => 1
        end
      else if (status =? 429)%Z then 3 * (Z.of_nat attempt + 1)
      else 1
  | Failed TimeoutError => 2
  | Failed _ => 1
  end.

Definition succeeded (a : Attempt) : option pystr :=
  match a with
  | Responded status (inr html) =>
      if (status =? 200)%Z then Some html else None
  | _ => None
  end.

(** What a failed attempt [attempt] leaves in the log: the request and
    the pause before the next pass. *)
Definition failed_attempt (url : pystr) (attempt : nat) : list FetchEvent :=
  [Get url; Sleep (pause_after attempt (net url attempt))].
End Fetch.

(** ** Records, the world and the shared state *)

Record RandomFields := {
  rf_price_regular : Q;
  rf_price_discount : Q;
  rf_rating : Z;
  rf_distribution_type : pystr;
  rf_howlongtobeat : Q
}.

Record Game := {
  game_name : pystr;
  game_price_regular : Q;
  game_price_discount : Q;
  game_rating : Z;
  game_platforms : list pystr;
  game_image_url : pystr;
  game_distribution_type : pystr;
  game_howlongtobeat : Q;
  game_site : pystr;
  game_url : pystr
}.

(** The environment of one run.
    - [time_time k]: what the [k]-th call of [time.time()] made by [run]
      and [scrape_site] themselves returns (the reads of the workers are
      part of [batch_done]).
    - [seed_urls site]: what the site's seeder returns (the seeders catch
      every exception themselves).
    - [batch_done site idx batch]: the results of the tasks that
      [asyncio.wait] reports as done for the batch starting at [idx], in
      the order the [for] loop visits them; [None] is a worker that
      returned [None] or whose result raised.
    - [random_draw k]: the [k]-th bundle of random field values. *)
Record World := {
  time_time : nat -> Q;
  seed_urls : pystr -> list pystr;
  batch_done : pystr -> nat -> list pystr -> list (option Game);
  random_draw : nat -> RandomFields
}.

(** Operations that reach the network: a seeder is called (it fetches
    listing pages), a worker task is created for a URL (it fetches and
    extracts one page).  [print] and the pacing pauses leave no trace. *)
Inductive Event :=
| Discover (site : pystr)
| Dispatch (site url : pystr).

Record State := {
  existing_games : gset pystr;
  time_reads : nat;
  draws : nat;
  trace : list Event
}.

Definition M (A : Type) : Type := State -> Res A * State.

#[export] Instance M_ret : MRet M := fun A a st => (Ret a, st).

#[export] Instance M_bind : MBind M := fun A B k m st =>
  match m st with
  | (Ret a, st') => k a st'
  | (Raise e, st') => (Raise e, st')
  | (Starved, st') => (Starved, st')
  end.

Definition raise {A} (e : Exn) : M A := fun st => (Raise e, st).

Definition starve {A} : M A := fun st => (Starved, st).

(** [try: m  except Exception: handler] *)
Definition try_except {A} (m : M A) (handler : Exn -> M A) : M A :=
  fun st =>
    match m st with
    | (Raise e, st') => handler e st'
    | r => r
    end.

Definition get_existing : M (gset pystr) :=
  fun st => (Ret (existing_games st), st).

(** [existing_games.add(n)] *)
Definition add_existing (n : pystr) : M unit :=
  fun st => (Ret tt,
             {| existing_games := {[n]} ∪ existing_games st;
                time_reads := time_reads st;
                draws := draws st;
                trace := trace st |}).

Definition emit (evs : list Event) : M unit :=
  fun st => (Ret tt,
             {| existing_games := existing_games st;
                time_reads := time_reads st;
                draws := draws st;
                trace := trace st ++ evs |}).

(** The search [while True: ...; if free: break; counter += 1], with
    fuel. *)
Fixpoint search_free (taken : nat -> bool) (fuel counter : nat)
  : option nat :=
  match fuel with
  | 0 => None
  | S fuel' =>
      if taken counter then search_free taken fuel' (S counter)
      else Some counter
  end.

Definition TARGET : list (pystr * nat) :=
  [(py "steam", 80); (py "gog", 80); (py "gmg", 50)].

(** [TARGET[site]], a [KeyError] for an unknown key. *)
Definition TARGET_get (site : pystr) : M nat :=
  match list_find (fun kv => bool_decide (kv.1 = site)) TARGET with
  | Some (_, (_, n)) => mret n
  | None => raise OtherException
  end.

Definition placeholder_image : pystr :=
  py "https://via.placeholder.com/460x215/333333/ffffff?text=Juego".

Definition synthetic_game (name site url : pystr) (r : RandomFields) : Game :=
  {| game_name := name;
     game_price_regular := rf_price_regular r;
     game_price_discount := rf_price_discount r;
     game_rating := rf_rating r;
     game_platforms := [py "PC"];
     game_image_url := placeholder_image;
     game_distribution_type := rf_distribution_type r;
     game_howlongtobeat := rf_howlongtobeat r;
     game_site := site;
     game_url := url |}.

(** ** scrape_site and run *)

Section Orchestrator.
Context `{PyCase} (w : World).

(** [time.time()] *)
Definition time_now : M Q :=
  fun st => (Ret (time_time w (time_reads st)),
             {| existing_games := existing_games st;
                time_reads := S (time_reads st);
                draws := draws st;
                trace := trace st |}).

(** The random values of one synthetic record. *)
Definition draw : M RandomFields :=
  fun st => (Ret (random_draw w (draws st)),
             {| existing_games := existing_games st;
                time_reads := time_reads st;
                draws := S (draws st);
                trace := trace st |}).

(** [f"Exclusivo {site.upper()} Juego {synthetic_counter}"] *)
Definition backfill_name (site : pystr) (n : nat) : pystr :=
  py "Exclusivo " ++ upper site ++ py " Juego " ++ str_of_nat n.

(** [f"Timeout {site.upper()} Juego {synthetic_counter}"] *)
Definition timeout_name (site : pystr) (n : nat) : pystr :=
  py "Timeout " ++ upper site ++ py " Juego " ++ str_of_nat n.

(** [f"Backup {site.upper()} Juego {synthetic_counter}"] *)
Definition backup_name (site : pystr) (n : nat) : pystr :=
  py "Backup " ++ upper site ++ py " Juego " ++ str_of_nat n.

(** [f"Juego {site.upper()} #{i+1}"] *)
Definition fallback_name (site : pystr) (i : nat) : pystr :=
  py "Juego " ++ upper site ++ py " #" ++ str_of_nat (i + 1).

Definition game_page (n : nat) : pystr :=
  py "https://example.com/game/" ++ str_of_nat n.

Definition backup_page (n : nat) : pystr :=
  py "https://example.com/backup/" ++ str_of_nat n.

(** The body of [for task in done]: a record with a name whose
    normalised form is in neither set is appended and entered in both. *)
Definition accept (r : option Game) (acc : list Game * gset pystr)
  : M (list Game * gset pystr) :=
  match r with
  | Some game =>
      match game_name game with
      | [] => mret acc
      | _ =>
          let normalized_name := normalize_game_name (game_name game) in
          existing ← get_existing;
          if bool_decide (normalized_name ∉ acc.2)
             && bool_decide (normalized_name ∉ existing)
          then
            _ ← add_existing normalized_name;
            mret (acc.1 ++ [game], {[normalized_name]} ∪ acc.2)
          else mret acc
      end
  | None => mret acc
  end.

Fixpoint accept_done (done : list (option Game))
    (acc : list Game * gset pystr) : M (list Game * gset pystr) :=
  match done with
  | [] => mret acc
  | r :: rest => acc' ← accept r acc; accept_done rest acc'
  end.

(** [asyncio.wait(tasks, ...)]: [ValueError] on an empty task list. *)
Definition asyncio_wait (site : pystr) (idx : nat) (batch : list pystr)
  : M (list (option Game)) :=
  match batch with
  | [] => raise ValueError
  | _ => mret (batch_done w site idx batch)
  end.

(** [asyncio.Semaphore(concurrency)]: [ValueError] below zero. *)
Definition new_semaphore (concurrency : Z) : M unit :=
  if (concurrency <? 0)%Z then raise ValueError else mret tt.

(** The [while] loop of the harvesting phase.  One unit of fuel per
    pass; the loop is entered with more fuel than there are seeds. *)
Fixpoint harvest (fuel : nat) (site : pystr) (target : nat)
    (concurrency : Z) (deadline : Q) (seeds : list pystr)
    (idx attempts : nat) (acc : list Game * gset pystr)
  : M (list Game * gset pystr) :=
  match fuel with
  | 0 => starve
  | S fuel' =>
      if negb (length acc.1 <? target) then mret acc
      else if negb (idx <? length seeds) then mret acc
      else
        now ← time_now;
        if Qle_bool deadline now then mret acc
        else if negb (attempts <? length seeds) then mret acc
        else
          let batch_size :=
            Z.min (concurrency * 3)
                  (Z.of_nat (length seeds) - Z.of_nat idx) in
          let batch := take (Z.to_nat batch_size) (drop idx seeds) in
          _ ← emit (map (Dispatch site) batch);
          done ← asyncio_wait site idx batch;
          acc' ← accept_done done acc;
          if target <=? length acc'.1 then mret acc'
          else harvest fuel' site target concurrency deadline seeds
                       (idx + Z.to_nat batch_size)
                       (attempts + length batch) acc'
  end.

(** A synthetic name is taken when its normal form is in the local or
    in the shared set. *)
Definition name_taken (mk : nat -> pystr) (seen_names existing : gset pystr)
    (counter : nat) : bool :=
  negb (bool_decide (normalize_game_name (mk counter) ∉ seen_names)
        && bool_decide (normalize_game_name (mk counter) ∉ existing)).

(** [for _ in range(k)] of the synthetic fill. *)
Fixpoint backfill (k : nat) (site : pystr) (synthetic_counter : nat)
    (acc : list Game * gset pystr) : M (list Game * gset pystr) :=
  match k with
  | 0 => mret acc
  | S k' =>
      existing ← get_existing;
      match search_free (name_taken (backfill_name site) acc.2 existing)
                        (S (size (acc.2 ∪ existing))) synthetic_counter with
      | None => starve
      | Some counter =>
          let normalized_synthetic :=
            normalize_game_name (backfill_name site counter) in
          r ← draw;
          _ ← add_existing normalized_synthetic;
          backfill k' site (S counter)
            (acc.1 ++ [synthetic_game (backfill_name site counter) site
                                      (game_page counter) r],
             {[normalized_synthetic]} ∪ acc.2)
      end
  end.

(** The seeder of a site, [None] for a site the [if] chain does not
    know. *)
Definition seeds_for (site : pystr) : M (option (list pystr)) :=
  if bool_decide (site = py "steam") then
    _ ← emit [Discover site]; mret (Some (seed_urls w site))
  else if bool_decide (site = py "gog") then
    _ ← emit [Discover site]; mret (Some (seed_urls w site))
  else if bool_decide (site = py "gmg") then
    _ ← emit [Discover site]; mret (Some (seed_urls w site))
  else mret None.

(** The [try] block of [scrape_site], on a standard output that takes
    every message ([Console.scrape_site_body] has the [print] calls). *)
Definition scrape_site_body (site : pystr) (target : nat)
    (concurrency : Z) (deadline : Q) : M (list Game) :=
  found ← seeds_for site;
  match found with
  | None => mret []
  | Some [] => mret []
  | Some seeds =>
      _ ← new_semaphore concurrency;
      acc ← harvest (S (length seeds)) site target concurrency deadline
                    seeds 0 0 ([], ∅);
      acc ← (if length acc.1 <? target
             then backfill (target - length acc.1) site 1 acc
             else mret acc);
      mret (take target acc.1)
  end.

(** The [except Exception] block of [scrape_site], on a standard output
    that takes every message ([Console.fallback] has the [print]
    call). *)
Fixpoint fallback_loop (site : pystr) (indices : list nat)
    (synthetic_results : list Game) : M (list Game) :=
  match indices with
  | [] => mret synthetic_results
  | i :: rest =>
      r ← draw;
      fallback_loop site rest
        (synthetic_results
           ++ [synthetic_game (fallback_name site i) site (game_page i) r])
  end.

Definition fallback (site : pystr) (target : nat) : M (list Game) :=
  fallback_loop site (seq 0 target) [].

Definition scrape_site (site : pystr) (target : nat) (concurrency : Z)
    (deadline : Q) : M (list Game) :=
  try_except (scrape_site_body site target concurrency deadline)
             (fun _ => fallback site target).

(** The synthetic fill of [run] for a source reached after the
    deadline: only the shared set is consulted. *)
Fixpoint timeout_fill (k : nat) (site : pystr) (synthetic_counter : nat)
    (results : list Game) : M (list Game) :=
  match k with
  | 0 => mret results
  | S k' =>
      existing ← get_existing;
      match search_free (name_taken (timeout_name site) ∅ existing)
                        (S (size existing)) synthetic_counter with
      | None => starve
      | Some counter =>
          r ← draw;
          _ ← add_existing (normalize_game_name (timeout_name site counter));
          timeout_fill k' site (S counter)
            (results ++ [synthetic_game (timeout_name site counter) site
                                        (game_page counter) r])
      end
  end.

(** One pass of [for site in ["steam", "gog", "gmg"]]. *)
Definition run_site (site : pystr) (concurrency : Z) (deadline : Q)
    (results : list Game) : M (list Game) :=
  now ← time_now;
  if Qle_bool deadline now then
    remaining ← TARGET_get site;
    timeout_fill remaining site 1 results
  else
    target ← TARGET_get site;
    site_results ← scrape_site site target concurrency deadline;
    mret (results ++ site_results).

Fixpoint run_sites (sites : list pystr) (concurrency : Z) (deadline : Q)
    (results : list Game) : M (list Game) :=
  match sites with
  | [] => mret results
  | site :: rest =>
      results' ← run_site site concurrency deadline results;
      run_sites rest concurrency deadline results'
  end.

Definition SITES : list pystr := [py "steam"; py "gog"; py "gmg"].

(** The [try] block of [run], up to the list handed to the writers. *)
Definition run_body (timeout concurrency : Z) : M (list Game) :=
  now ← time_now;
  let deadline := (now + inject_Z timeout)%Q in
  run_sites SITES concurrency deadline [].

(** The [except Exception] block of [run]: a new set, one counter for
    all sources. *)
Definition reset_existing : M unit :=
  fun st => (Ret tt,
             {| existing_games := ∅;
                time_reads := time_reads st;
                draws := draws st;
                trace := trace st |}).

Fixpoint backup_fill (k : nat) (site : pystr) (synthetic_counter : nat)
    (results : list Game) : M (list Game * nat) :=
  match k with
  | 0 => mret (results, synthetic_counter)
  | S k' =>
      existing ← get_existing;
      match search_free (name_taken (backup_name site) ∅ existing)
                        (S (size existing)) synthetic_counter with
      | None => starve
      | Some counter =>
          r ← draw;
          _ ← add_existing (normalize_game_name (backup_name site counter));
          backup_fill k' site (S counter)
            (results ++ [synthetic_game (backup_name site counter) site
                                        (backup_page counter) r])
      end
  end.

Fixpoint backup_sites (items : list (pystr * nat)) (synthetic_counter : nat)
    (results : list Game) : M (list Game) :=
  match items with
  | [] => mret results
  | (site, count) :: rest =>
      '(results', counter') ← backup_fill count site synthetic_counter results;
      backup_sites rest counter' results'
  end.

Definition run_backup : M (list Game) :=
  _ ← reset_existing;
  backup_sites TARGET 1 [].

Definition initial_state : State :=
  {| existing_games := ∅; time_reads := 0; draws := 0; trace := [] |}.

(** [run]: the list that is written to the two files. *)
Definition run (timeout concurrency : Z) : Res (list Game) * State :=
  try_except (run_body timeout concurrency) (fun _ => run_backup)
             initial_state.
End Orchestrator.

(** ** A runnable instance of the case interface

    Exact for strings whose only cased characters are ASCII letters. *)

#[export] Program Instance ascii_case : PyCase := {|
  lower := ascii_lower;
  upper := ascii_upper;
  lower_stable := not_ascii_capital
|}.
Next Obligation.
  intros s Hs. unfold ascii_lower.
  induction Hs as [|c s Hc _ IH]; [reflexivity|].
  simpl. rewrite IH. unfold ascii_lower_cp.
  unfold not_ascii_capital in Hc. rewrite Hc. reflexivity.
Qed.
Next Obligation.
  intros s. unfold ascii_lower. induction s as [|c s IH]; simpl; constructor; auto.
  unfold not_ascii_capital, ascii_lower_cp.
  destruct ((65 <=? c)%N && (c <=? 90)%N) eqn:E; [|exact E].
  apply andb_false_iff. right. apply N.leb_gt.
  apply andb_true_iff in E as [E1 _]. apply N.leb_le in E1. lia.
Qed.
Next Obligation. reflexivity. Qed.
Next Obligation. reflexivity. Qed.
Next Obligation. reflexivity. Qed.

(** ** Outcomes of a computation

    [wp m st Post Exc]: from state [st], [m] either returns a value and a
    state that satisfy [Post], or raises an exception in a state that
    satisfies [Exc];
    it does not run out of fuel. *)
Definition wp {A} (m : M A) (st : State)
    (Post : A -> State -> Prop) (Exc : State -> Prop) : Prop :=
  match m st with
  | (Ret a, st') => Post a st'
  | (Raise _, st') => Exc st'
  | (Starved, _) => False
  end.

(** The normal form of a record's name: its identity. *)
Definition identity `{PyCase} (g : Game) : pystr :=
  normalize_game_name (game_name g).

Definition known_site (site : pystr) : Prop :=
  site = py "steam" \/ site = py "gog" \/ site = py "gmg".

(** [fresh_in E0 results E]: the records of [results] have pairwise
    distinct identities, none of them in [E0], all of them in [E], and [E]
    extends [E0].  With [E0] the shared set before a call and [E] the
    shared set after it, this is what deduplicated acceptance means. *)
Definition fresh_in `{PyCase} (E0 : gset pystr) (results : list Game)
    (E : gset pystr) : Prop :=
  E0 ⊆ E
  /\ NoDup (map identity results)
  /\ forall g, g ∈ results -> identity g ∈ E /\ identity g ∉ E0.

(** The records named by a scheme. *)
Definition named_by (mk : nat -> pystr) (g : Game) : Prop :=
  exists c, game_name g = mk c.

(** The invariant of the loop over the sources in [run]: [out] is the
    list built so far, [E] the shared set, [done] the sources already
    processed.  Identities are pairwise distinct; every record is in the
    shared set, except the records of the fallback scheme, which exist
    only when the concurrency is zero or less, and then every record is
    synthetic. *)
Definition run_inv `{PyCase} (concurrency : Z) (done : list pystr)
    (out : list Game) (E : gset pystr) : Prop :=
  NoDup (map identity out)
  /\ (forall g, g ∈ out ->
        identity g ∈ E
        \/ ((concurrency <= 0)%Z
            /\ exists s, known_site s /\ s ∈ done
                         /\ named_by (fallback_name s) g))
  /\ ((concurrency <= 0)%Z ->
      forall g, g ∈ out ->
        exists s, known_site s /\ s ∈ done
                  /\ (named_by (backfill_name s) g
                      \/ named_by (timeout_name s) g
                      \/ named_by (fallback_name s) g)).

(** The list the [except] block of [scrape_site] builds when the random
    generator has been drawn from [d] times. *)
Definition fallback_record `{PyCase} (w : World) (site : pystr) (d i : nat)
  : Game :=
  synthetic_game (fallback_name site i) site (game_page i)
                 (random_draw w (d + i)).

Definition fallback_list `{PyCase} (w : World) (site : pystr) (target d : nat)
  : list Game :=
  map (fallback_record w site d) (seq 0 target).

Definition with_draws (st : State) (d : nat) : State :=
  {| existing_games := existing_games st;
     time_reads := time_reads st;
     draws := d;
     trace := trace st |}.

(** ** Sample worlds *)

Definition sample_fields : RandomFields :=
  {| rf_price_regular := 19.99;
     rf_price_discount := 14.99;
     rf_rating := 90;
     rf_distribution_type := py "Digital";
     rf_howlongtobeat := 25 |}.

(** No network: every listing page fails, so every seeder returns the
    empty list; the clock stands before the deadline. *)
Definition offline_world : World :=
  {| time_time := fun _ => 0%Q;
     seed_urls := fun _ => [];
     batch_done := fun _ _ _ => [];
     random_draw := fun _ => sample_fields |}.

(** Every seeder finds three pages and every page yields a record named
    after its URL. *)
Definition page_game (site url : pystr) : Game :=
  synthetic_game (py "Game " ++ url) site url sample_fields.

Definition online_world : World :=
  {| time_time := fun _ => 0%Q;
     seed_urls := fun _ => [py "a"; py "b"; py "c"];
     batch_done := fun site _ batch => map (fun u => Some (page_game site u)) batch;
     random_draw := fun _ => sample_fields |}.

(** Five pages are found; three yield a record, two are not valid items. *)
Definition mixed_world : World :=
  {| time_time := fun _ => 0%Q;
     seed_urls := fun _ => [py "a"; py "b"; py "c"; py "d"; py "e"];
     batch_done := fun site _ batch =>
       map (fun u => if bool_decide (u ∈ [py "d"; py "e"]) then None
                     else Some (page_game site u)) batch;
     random_draw := fun _ => sample_fields |}.

(** The clock is already past every deadline. *)
Definition late_world : World :=
  {| time_time := fun _ => 1000%Q;
     seed_urls := fun _ => [py "a"; py "b"; py "c"];
     batch_done := fun site _ batch => map (fun u => Some (page_game site u)) batch;
     random_draw := fun _ => sample_fields |}.

(** A shared set that already holds the identity of the first fallback
    record of steam. *)
Definition crowded_state : State :=
  {| existing_games := {[py "juego steam #1"]};
     time_reads := 0;
     draws := 0;
     trace := [] |}.

(** ** Substrings and joins *)

(** [s.startswith(prefix)] *)
Fixpoint starts_with (prefix s : pystr) : bool :=
  match prefix, s with
  | [], _ => true
  | _ :: _, [] => false
  | a :: prefix', c :: s' => (a =? c)%N && starts_with prefix' s'
  end.

(** [needle in hay] *)
Fixpoint str_in (needle hay : pystr) : bool :=
  match hay with
  | [] => starts_with needle []
  | _ :: hay' => starts_with needle hay || str_in needle hay'
  end.

(** [s.split(sep)[0]] for a one-character [sep]. *)
Fixpoint before_char (sep : N) (s : pystr) : pystr :=
  match s with
  | [] => []
  | c :: s' => if (c =? sep)%N then [] else c :: before_char sep s'
  end.

(** [sep.join(parts)] *)
Fixpoint str_join (sep : pystr) (parts : list pystr) : pystr :=
  match parts with
  | [] => []
  | p :: rest =>
      match rest with
      | [] => p
      | _ :: _ => p ++ sep ++ str_join sep rest
      end
  end.

(** Number of occurrences of a character. *)
Definition occurrences (c : N) (s : pystr) : nat :=
  length (List.filter (N.eqb c) s).

(** ** scrape_game *)

Definition with_url (g : Game) (url : pystr) : Game :=
  {| game_name := game_name g;
     game_price_regular := game_price_regular g;
     game_price_discount := game_price_discount g;
     game_rating := game_rating g;
     game_platforms := game_platforms g;
     game_image_url := game_image_url g;
     game_distribution_type := game_distribution_type g;
     game_howlongtobeat := game_howlongtobeat g;
     game_site := game_site g;
     game_url := url |}.

Section ScrapeGame.
(** The network, and the three parsers: they catch every exception
    themselves and return [None] for a page without a name. *)
Variable net : pystr -> nat -> Attempt.
Variables parse_steam parse_gog parse_gmg : pystr -> option Game.

(** The [if site == ...] chain; [None] is the [else: return None]. *)
Definition parser_for (site : pystr) : option (pystr -> option Game) :=
  if bool_decide (site = py "steam") then Some parse_steam
  else if bool_decide (site = py "gog") then Some parse_gog
  else if bool_decide (site = py "gmg") then Some parse_gmg
  else None.

Definition scrape_game (site url : pystr)
  : Res (option Game) * list FetchEvent :=
  match fetch net url with
  | (Ret (Some (c :: html)), log) =>
      match parser_for site with
      | Some parse =>
          match parse (c :: html) with
          | Some base =>
              match game_name base with
              | [] => (Ret None, log)
              | _ => (Ret (Some (with_url base url)), log)
              end
          | None => (Ret None, log)
          end
      | None => (Ret None, log)
      end
  | (Ret _, log) => (Ret None, log)
  | (Raise _, log) => (Ret None, log)
  | (Starved, log) => (Starved, log)
  end.
End ScrapeGame.

(** ** The seeders *)

Section Seeders.
(** [select_hrefs selector html] is the list of [link.get("href")] over
    [BeautifulSoup(html, "lxml").select(selector)]; [urljoin] is
    [urllib.parse.urljoin]. *)
Variable net : pystr -> nat -> Attempt.
Variable select_hrefs : pystr -> pystr -> list (option pystr).
Variable urljoin : pystr -> pystr -> pystr.

(** The loop over the listing pages, shared by the three seeders:
    [collect html urls] is the inner [for] over the links of one page.
    A page that cannot be fetched is skipped; the loop ends after the
    first page that brings the list to [max_urls] or more. *)
Fixpoint seed_pages (page_url : nat -> pystr)
    (collect : pystr -> list pystr -> list pystr) (max_urls : nat)
    (pages : list nat) (urls : list pystr)
  : Res (list pystr) * list FetchEvent :=
  match pages with
  | [] => (Ret urls, [])
  | page :: rest =>
      match fetch net (page_url page) with
      | (Ret (Some (c :: html)), log) =>
          let urls' := collect (c :: html) urls in
          if max_urls <=? length urls' then (Ret urls', log)
          else
            let '(r, log') := seed_pages page_url collect max_urls rest urls'
            in (r, log ++ log')
      | (Ret _, log) =>
          let '(r, log') := seed_pages page_url collect max_urls rest urls
          in (r, log ++ log')
      | (Raise _, log) => (Ret urls, log)
      | (Starved, log) => (Starved, log)
      end
  end.

(** The body of [for link in links] of [seed_steam]. *)
Definition steam_add (urls : list pystr) (href : option pystr)
  : list pystr :=
  match href with
  | Some (c :: h) =>
      if str_in (py "/app/") (c :: h) then
        let clean_url := before_char 63 (c :: h) in
        if bool_decide (clean_url ∈ urls) then urls else urls ++ [clean_url]
      else urls
  | _ => urls
  end.

Definition steam_page (page : nat) : pystr :=
  py "https://store.steampowered.com/search/?filter=topsellers&page="
  ++ str_of_nat page.

Definition steam_collect (html : pystr) (urls : list pystr) : list pystr :=
  fold_left steam_add (select_hrefs (py "a.search_result_row") html) urls.

Definition seed_steam (max_urls : nat)
  : Res (list pystr) * list FetchEvent :=
  seed_pages steam_page steam_collect max_urls (seq 1 29) [].

(** The body of [for link in links] of [seed_gog]. *)
Definition gog_add (urls : list pystr) (href : option pystr) : list pystr :=
  match href with
  | Some (c :: h) =>
      let full_url := urljoin (py "https://www.gog.com") (c :: h) in
      if bool_decide (full_url ∉ urls) && str_in (py "/game/") full_url
      then urls ++ [full_url] else urls
  | _ => urls
  end.

Definition gog_page (page : nat) : pystr :=
  py "https://www.gog.com/en/games?page=" ++ str_of_nat page
  ++ py "&order=desc:trending".

(** [soup.select("a.product-tile") or soup.select("a[href*='/game/']")] *)
Definition gog_links (html : pystr) : list (option pystr) :=
  match select_hrefs (py "a.product-tile") html with
  | [] => select_hrefs (py "a[href*='/game/']") html
  | links => links
  end.

Definition gog_collect (html : pystr) (urls : list pystr) : list pystr :=
  fold_left gog_add (gog_links html) urls.

Definition seed_gog (max_urls : nat) : Res (list pystr) * list FetchEvent :=
  seed_pages gog_page gog_collect max_urls (seq 1 29) [].

(** The body of [for a in product_links] of [seed_gmg]. *)
Definition gmg_add (urls : list pystr) (href : option pystr) : list pystr :=
  match href with
  | Some (c :: h) =>
      let full_url :=
        if starts_with (py "/") (c :: h)
        then urljoin (py "https://www.greenmangaming.com") (c :: h)
        else c :: h in
      if str_in (py "/games/") full_url && bool_decide (full_url ∉ urls)
      then urls ++ [full_url] else urls
  | _ => urls
  end.

Definition gmg_page (page : nat) : pystr :=
  py "https://www.greenmangaming.com" ++ py "/games/?page="
  ++ str_of_nat page.

Definition gmg_collect (html : pystr) (urls : list pystr) : list pystr :=
  fold_left gmg_add (select_hrefs (py "a[href*='/games/']") html) urls.

Definition seed_gmg (max_urls : nat) : Res (list pystr) * list FetchEvent :=
  seed_pages gmg_page gmg_collect max_urls (seq 1 19) [].
End Seeders.

(** A network on which every request fails. *)
Definition dead_net : pystr -> nat -> Attempt :=
  fun _ _ => Failed OtherException.

(** ** The price block of the parsers

    The page is reduced to what the selectors find: the text of an
    element, or [None] when the element is missing (a found element is
    always true in a Python condition).  The random draws are arguments. *)

(** The list of [generate_random_price]. *)
Definition PRICES : list Q :=
  [4.99; 9.99; 14.99; 19.99; 24.99; 29.99; 34.99; 39.99; 44.99; 49.99;
   59.99]%Q.

(** The percentages drawn by [parse_steam] and [parse_gog], and by
    [parse_gmg]. *)
Definition STEAM_PERCENTS : list Z := [0; 0; 0; 10; 15; 20; 25; 30]%Z.
Definition GMG_PERCENTS : list Z := [0; 10; 15; 20; 25; 30]%Z.

(** Truth value of an optional float: [None] and zero are false. *)
Definition truthy (p : option Q) : bool :=
  match p with
  | Some q => negb (Qeq_bool q 0)
  | None => false
  end.

(** Nearest integer, ties to even. *)
Definition round_half_even (q : Q) : Z :=
  let f := (Qnum q / Z.pos (Qden q))%Z in
  match Qcompare (q - inject_Z f) (1 # 2) with
  | Lt => f
  | Gt => (f + 1)%Z
  | Eq => if Z.even f then f else (f + 1)%Z
  end.

(** [round(x, 2)].  For the products formed below (a price of [PRICES]
    times one of the percentages) no tie occurs, so the exact value and
    the floating-point value round to the same hundredth. *)
Definition round2 (q : Q) : Q := Qmake (round_half_even (q * 100)) 100.

(** [round(price_regular * (1 - discount_percent / 100), 2)] *)
Definition discounted (price_regular : Q) (discount_percent : Z) : Q :=
  round2 (price_regular * (1 - inject_Z discount_percent / 100)).

Definition text_price (el : option pystr) : option Q :=
  match el with
  | Some text => money_to_float text
  | None => None
  end.

(** The two closing steps shared by [parse_steam] and [parse_gog]:
    [if not price_regular: ...] and [if not price_discount: ...]. *)
Definition fill_prices (prices : option Q * option Q) (random_price : Q)
    (discount_percent : Z) : option Q * option Q :=
  let '(price_regular, price_discount) :=
    if negb (truthy prices.1)
    then (Some random_price, Some (discounted random_price discount_percent))
    else prices in
  let price_discount :=
    if negb (truthy price_discount) then price_regular else price_discount in
  (price_regular, price_discount).

(** [parse_steam], lines 196-218: [(price_regular, price_discount)]. *)
Definition steam_prices (discount_el original_el single_el : option pystr)
    (random_price : Q) (discount_percent : Z) : option Q * option Q :=
  let scraped :=
    match discount_el with
    | Some text =>
        (match original_el with
         | Some original => money_to_float original
         | None => None
         end,
         money_to_float text)
    | None =>
        match single_el with
        | Some text =>
            let price := money_to_float text in
            if truthy price then (price, price) else (None, None)
        | None => (None, None)
        end
    end in
  fill_prices scraped random_price discount_percent.


(** [parse_gmg], lines 332-359. *)
Definition gmg_prices (price_now_el price_old_el : option pystr)
    (random_price : Q) (discount_percent : Z) : option Q * option Q :=
  let price_discount := text_price price_now_el in
  let price_regular := text_price price_old_el in
  if negb (truthy price_regular) && negb (truthy price_discount) then
    (Some random_price, Some (discounted random_price discount_percent))
  else
    let price_regular :=
      match price_regular, price_discount with
      | None, Some _ => price_discount
      | _, _ => price_regular
      end in
    let price_discount :=
      match price_discount, price_regular with
      | None, Some _ => price_regular
      | _, _ => price_discount
      end in
    (price_regular, price_discount).

(** ** save_csv *)

(** The body of [for val in row]: quotes are doubled; the value is put
    between quotes when it holds a comma or a newline. *)
Definition csv_escape (val : pystr) : pystr :=
  let val_str := replace_char 34 [34; 34]%N val in
  if contains 44 val_str || contains 10 val_str
  then [34%N] ++ val_str ++ [34%N]
  else val_str.

(** [",".join(safe) + "\n"] *)
Definition csv_line (row : list pystr) : pystr :=
  str_join [44%N] (map csv_escape row) ++ [10%N].

Definition csv_headers : list pystr :=
  [py "name"; py "price_regular"; py "price_discount"; py "rating";
   py "platforms"; py "howlongtobeat"; py "distribution_type";
   py "site"; py "url"; py "image_url"].

(** [str(n)] for an [int]. *)
Definition str_of_Z (z : Z) : pystr :=
  if (z <? 0)%Z then 45%N :: str_of_nat (Z.to_nat (- z))
  else str_of_nat (Z.to_nat z).

Section SaveCsv.
(** [str(x)] for a [float] is left open. *)
Variable str_float : Q -> pystr.

(** [str(x or "")] *)
Definition str_float_or_empty (x : Q) : pystr :=
  if Qeq_bool x 0 then [] else str_float x.

Definition csv_row (game : Game) : list pystr :=
  [game_name game;
   str_float_or_empty (game_price_regular game);
   str_float_or_empty (game_price_discount game);
   (if (game_rating game =? 0)%Z then [] else str_of_Z (game_rating game));
   str_join [59%N] (game_platforms game);
   str_float_or_empty (game_howlongtobeat game);
   game_distribution_type game;
   game_site game;
   game_url game;
   game_image_url game].

(** Everything [save_csv] writes to the file, in order. *)
Definition save_csv_text (data : list Game) : pystr :=
  (str_join [44%N] csv_headers ++ [10%N])
  ++ flat_map (fun game => csv_line (csv_row game)) data.
End SaveCsv.

(** Reading a line the way a CSV reader does: a quote switches between
    inside and outside; [unquoted c inside s] counts the occurrences of
    [c] outside quotes and tells where the scan ends. *)
Fixpoint unquoted (c : N) (inside : bool) (s : pystr) : nat * bool :=
  match s with
  | [] => (0, inside)
  | x :: s' =>
      if (x =? 34)%N then unquoted c (negb inside) s'
      else
        let '(n, final) := unquoted c inside s' in
        (if negb inside && (x =? c)%N then S n else n, final)
  end.

(** Sum of a list of durations. *)
Definition total (l : list Z) : Z := fold_right Z.add 0%Z l.

(** What a URL returned by [seed_steam] looks like: it has no question
    mark and is the part before the first question mark of a link that
    holds ["/app/"]. *)
Definition steam_url_ok (u : pystr) : Prop :=
  contains 63 u = false
  /\ exists href, str_in (py "/app/") href = true /\ u = before_char 63 href.

(** ** scrape_site with its console output

    [scrape_site] above is the function as it runs on a standard output
    that takes every message: its four [print] calls then change nothing
    that is observed here, and are left out.  In this module they are in,
    over a standard output that may refuse a text. *)

Module Console.
Section Stdout.
Context `{PyCase} (w : World).

(** The standard output of the process: [stdout msg] is the exception
    that writing [msg] raises, [None] when the text is written. *)
Variable stdout : pystr -> option Exn.

(** [str(e)] *)
Variable exn_text : Exn -> pystr.

(** [print(msg)] *)
Definition print (msg : pystr) : M unit :=
  match stdout msg with
  | Some e => raise e
  | None => mret tt
  end.

(** [f"\nIniciando {site}"] *)
Definition starting (site : pystr) : pystr :=
  [10%N] ++ py "Iniciando " ++ site.

(** [f"  <U+2713> {len(seeds)} URLs encontradas para {site}"] *)
Definition found_urls (n : nat) (site : pystr) : pystr :=
  py "  " ++ [10003%N] ++ py " " ++ str_of_nat n
  ++ py " URLs encontradas para " ++ site.

(** [f"  <U+26A0><U+FE0F>  No se encontraron URLs para {site}"] *)
Definition no_urls (site : pystr) : pystr :=
  py "  " ++ [9888%N; 65039%N] ++ py "  No se encontraron URLs para " ++ site.

(** [f"  <U+274C> Error en {site}: {e}"] *)
Definition error_in (site : pystr) (e : Exn) : pystr :=
  py "  " ++ [10060%N] ++ py " Error en " ++ site ++ py ": " ++ exn_text e.

(** The [try] block of [scrape_site]. *)
Definition scrape_site_body (site : pystr) (target : nat)
    (concurrency : Z) (deadline : Q) : M (list Game) :=
  _ ← print (starting site);
  found ← seeds_for w site;
  match found with
  | None => mret []
  | Some seeds =>
      _ ← print (found_urls (length seeds) site);
      match seeds with
      | [] => _ ← print (no_urls site); mret []
      | _ :: _ =>
          _ ← new_semaphore concurrency;
          acc ← harvest w (S (length seeds)) site target concurrency deadline
                        seeds 0 0 ([], ∅);
          acc ← (if length acc.1 <? target
                 then backfill w (target - length acc.1) site 1 acc
                 else mret acc);
          mret (take target acc.1)
      end
  end.

(** The [except Exception as e] block of [scrape_site]. *)
Definition fallback (site : pystr) (target : nat) (e : Exn)
  : M (list Game) :=
  _ ← print (error_in site e);
  fallback_loop w site (seq 0 target) [].

Definition scrape_site (site : pystr) (target : nat) (concurrency : Z)
    (deadline : Q) : M (list Game) :=
  try_except (scrape_site_body site target concurrency deadline)
             (fallback site target).
End Stdout.

(** A standard output encoded as ASCII: a text with a code point above
    127 raises [UnicodeEncodeError], which is a [ValueError]. *)
Definition ascii_stdout (msg : pystr) : option Exn :=
  if forallb (fun c => (c <? 128)%N) msg then None else Some ValueError.

(** A closed standard output: every write raises [ValueError]. *)
Definition closed_stdout (msg : pystr) : option Exn := Some ValueError.
End Console.

(** * Properties *)

(** ** Strings *)

Lemma lstrip_app_last (x : pystr) (c : N) :
  lstrip (x ++ [c]) =
  match lstrip x with
  | [] => if py_isspace c then [] else [c]
  | l => l ++ [c]
  end.
Proof.
  induction x as [|d x IH]; simpl.
  - reflexivity.
  - destruct (py_isspace d); [exact IH|reflexivity].
Qed.

Lemma rstrip_cons (c : N) (s : pystr) :
  rstrip (c :: s) =
  match rstrip s with
  | [] => if py_isspace c then [] else [c]
  | r => c :: r
  end.
Proof.
  unfold rstrip. simpl rev. rewrite lstrip_app_last.
  destruct (lstrip (rev s)) as [|d l] eqn:E; simpl.
  - destruct (py_isspace c); reflexivity.
  - rewrite rev_app_distr. simpl.
    destruct (rev l ++ [d]) eqn:E'; [|reflexivity].
    destruct (rev l); discriminate.
Qed.

Lemma rstrip_nil : rstrip [] = [].
Proof. reflexivity. Qed.

Lemma lstrip_idem (s : pystr) : lstrip (lstrip s) = lstrip s.
Proof.
  induction s as [|c s IH]; simpl; [reflexivity|].
  destruct (py_isspace c) eqn:E; [exact IH|].
  simpl. rewrite E. reflexivity.
Qed.

Lemma lstrip_head (s : pystr) (c : N) (r : pystr) :
  lstrip s = c :: r -> py_isspace c = false.
Proof.
  induction s as [|d s IH]; simpl; [discriminate|].
  destruct (py_isspace d) eqn:E; [exact IH|].
  intros [= <- _]. exact E.
Qed.

Lemma lstrip_suffix (s : pystr) : exists p, s = p ++ lstrip s.
Proof.
  induction s as [|c s [p IH]]; simpl.
  - exists []. reflexivity.
  - destruct (py_isspace c).
    + exists (c :: p). simpl. f_equal. exact IH.
    + exists []. reflexivity.
Qed.

Lemma rstrip_prefix (s : pystr) : exists t, s = rstrip s ++ t.
Proof.
  induction s as [|c s [t IH]].
  - exists []. reflexivity.
  - rewrite rstrip_cons. destruct (rstrip s) as [|d r].
    + destruct (py_isspace c).
      * exists (c :: s). reflexivity.
      * exists s. reflexivity.
    + exists t. simpl. f_equal. exact IH.
Qed.

Lemma rstrip_idem (s : pystr) : rstrip (rstrip s) = rstrip s.
Proof.
  unfold rstrip. rewrite rev_involutive, lstrip_idem. reflexivity.
Qed.

Lemma lstrip_rstrip_head (c : N) (s : pystr) :
  py_isspace c = false -> lstrip (rstrip (c :: s)) = rstrip (c :: s).
Proof.
  intros E. rewrite rstrip_cons.
  destruct (rstrip s); rewrite ?E; simpl; rewrite E; reflexivity.
Qed.

Lemma strip_idem (s : pystr) : strip (strip s) = strip s.
Proof.
  unfold strip.
  destruct (lstrip s) as [|c r] eqn:E.
  - reflexivity.
  - rewrite lstrip_rstrip_head by (eapply lstrip_head; exact E).
    apply rstrip_idem.
Qed.

Lemma Forall_strip (P : N -> Prop) (s : pystr) :
  Forall P s -> Forall P (strip s).
Proof.
  intros Hs. unfold strip.
  destruct (lstrip_suffix s) as [p Hp].
  destruct (rstrip_prefix (lstrip s)) as [t Ht].
  rewrite Hp, Ht in Hs.
  apply Forall_app in Hs as [_ Hs].
  apply Forall_app in Hs as [Hs _]. exact Hs.
Qed.

Lemma collapse_ws_cons (c : N) (s : pystr) :
  collapse_ws (c :: s) =
  if py_isspace c then
    match s with
    | [] => [32%N]
    | c' :: _ => if py_isspace c' then collapse_ws s else 32%N :: collapse_ws s
    end
  else c :: collapse_ws s.
Proof. reflexivity. Qed.

Lemma Forall_collapse_ws (P : N -> Prop) (s : pystr) :
  P 32%N -> Forall P s -> Forall P (collapse_ws s).
Proof.
  intros Hsp. induction s as [|c s IH]; intros Hs; [constructor|].
  rewrite collapse_ws_cons.
  apply Forall_cons in Hs as [Hc Hs]. specialize (IH Hs).
  destruct (py_isspace c).
  - destruct s as [|c' s'].
    + constructor; [exact Hsp|constructor].
    + destruct (py_isspace c'); [exact IH|].
      constructor; [exact Hsp|exact IH].
  - constructor; [exact Hc|exact IH].
Qed.

Lemma collapsed_cons (c : N) (s : pystr) :
  collapsed (c :: s) =
  if py_isspace c then
    (c =? 32)%N
    && match s with
       | [] => true
       | c' :: _ => negb (py_isspace c')
       end
    && collapsed s
  else collapsed s.
Proof. reflexivity. Qed.

Lemma collapse_ws_collapsed (s : pystr) : collapsed (collapse_ws s) = true.
Proof.
  induction s as [|c s IH]; [reflexivity|].
  rewrite collapse_ws_cons.
  destruct (py_isspace c) eqn:Ec.
  - destruct s as [|c' s']; [reflexivity|].
    destruct (py_isspace c') eqn:Ec'; [exact IH|].
    rewrite collapsed_cons. change (py_isspace 32) with true.
    rewrite IH. rewrite collapse_ws_cons, Ec'. simpl. rewrite Ec'. reflexivity.
  - rewrite collapsed_cons, Ec. exact IH.
Qed.

Lemma collapse_ws_fixed (s : pystr) :
  collapsed s = true -> collapse_ws s = s.
Proof.
  induction s as [|c s IH]; [reflexivity|].
  rewrite collapsed_cons, collapse_ws_cons.
  destruct (py_isspace c) eqn:Ec.
  - intros Hc. apply andb_true_iff in Hc as [Hc Hs].
    apply andb_true_iff in Hc as [Hc Hn].
    apply N.eqb_eq in Hc. subst c.
    destruct s as [|c' s']; [reflexivity|].
    apply negb_true_iff in Hn. rewrite Hn. f_equal. apply IH, Hs.
  - intros Hs. f_equal. apply IH, Hs.
Qed.

Lemma collapsed_app_r (a b : pystr) :
  collapsed (a ++ b) = true -> collapsed b = true.
Proof.
  induction a as [|c a IH]; [auto|].
  change ((c :: a) ++ b) with (c :: (a ++ b)). rewrite collapsed_cons.
  destruct (py_isspace c); [|exact IH].
  intros Hc. apply andb_true_iff in Hc as [_ Hc]. apply IH, Hc.
Qed.

Lemma collapsed_app_l (a b : pystr) :
  collapsed (a ++ b) = true -> collapsed a = true.
Proof.
  induction a as [|c a IH]; [reflexivity|].
  change ((c :: a) ++ b) with (c :: (a ++ b)). rewrite !collapsed_cons.
  destruct (py_isspace c); [|exact IH].
  intros Hc. apply andb_true_iff in Hc as [Hc Hs].
  apply andb_true_iff in Hc as [Hc Hn].
  rewrite Hc, (IH Hs). destruct a; [reflexivity|]. simpl in Hn.
  rewrite Hn. reflexivity.
Qed.

Lemma collapsed_strip (s : pystr) :
  collapsed s = true -> collapsed (strip s) = true.
Proof.
  intros Hs. unfold strip.
  destruct (lstrip_suffix s) as [p Hp].
  destruct (rstrip_prefix (lstrip s)) as [t Ht].
  rewrite Hp in Hs. apply collapsed_app_r in Hs.
  rewrite Ht in Hs. apply collapsed_app_l in Hs. exact Hs.
Qed.

Lemma filter_fixed (f : N -> bool) (s : pystr) :
  Forall (fun c => f c = true) s -> List.filter f s = s.
Proof.
  induction 1 as [|c s Hc _ IH]; simpl; [reflexivity|].
  rewrite Hc, IH. reflexivity.
Qed.

Lemma Forall_filter_true (f : N -> bool) (s : pystr) :
  Forall (fun c => f c = true) (List.filter f s).
Proof.
  induction s as [|c s IH]; simpl; [constructor|].
  destruct (f c) eqn:E; [constructor; assumption|assumption].
Qed.

Lemma Forall_filter_keep (P : N -> Prop) (f : N -> bool) (s : pystr) :
  Forall P s -> Forall P (List.filter f s).
Proof.
  induction 1 as [|c s Hc _ IH]; simpl; [constructor|].
  destruct (f c); [constructor; assumption|assumption].
Qed.

Lemma collapse_ws_solid (d : pystr) :
  Forall (fun c => py_isspace c = false) d -> collapse_ws d = d.
Proof.
  induction 1 as [|c d Hc _ IH]; [reflexivity|].
  rewrite collapse_ws_cons, Hc, IH. reflexivity.
Qed.

Lemma collapse_ws_app_solid (p d : pystr) :
  d <> [] -> Forall (fun c => py_isspace c = false) d ->
  collapse_ws (p ++ d) = collapse_ws p ++ d.
Proof.
  intros Hne Hd. induction p as [|c p IH].
  - apply collapse_ws_solid, Hd.
  - change ((c :: p) ++ d) with (c :: (p ++ d)).
    rewrite !collapse_ws_cons. destruct (py_isspace c).
    + destruct p as [|c' p'].
      * destruct d as [|e d']; [congruence|].
        change ([] ++ e :: d') with (e :: d').
        apply Forall_cons in Hd as [He Hd'].
        rewrite He. change ([] ++ e :: d') with (e :: d') in IH.
        rewrite IH. reflexivity.
      * change ((c' :: p') ++ d) with (c' :: (p' ++ d)) in *.
        cbv beta iota.
        destruct (py_isspace c'); rewrite IH; reflexivity.
    + rewrite IH. reflexivity.
Qed.

Lemma rstrip_solid (d : pystr) :
  Forall (fun c => py_isspace c = false) d -> rstrip d = d.
Proof.
  induction 1 as [|c d Hc _ IH]; [reflexivity|].
  rewrite rstrip_cons, IH, Hc. destruct d; reflexivity.
Qed.

Lemma rstrip_app_solid (p d : pystr) :
  d <> [] -> Forall (fun c => py_isspace c = false) d ->
  rstrip (p ++ d) = p ++ d.
Proof.
  intros Hne Hd. induction p as [|c p IH].
  - apply rstrip_solid, Hd.
  - change ((c :: p) ++ d) with (c :: (p ++ d)).
    rewrite rstrip_cons, IH.
    destruct (p ++ d) eqn:E; [|reflexivity].
    apply app_eq_nil in E as [_ E]. congruence.
Qed.

Lemma uint_digits_in (u : Decimal.uint) :
  Forall (fun c => In c decimal_digits) (uint_digits u).
Proof.
  induction u; simpl; constructor; try assumption;
    unfold decimal_digits, digit_cp; simpl; tauto.
Qed.

Lemma uint_digits_inj (u v : Decimal.uint) :
  uint_digits u = uint_digits v -> u = v.
Proof.
  revert v. induction u; intros v; destruct v; simpl;
    try discriminate; try reflexivity;
    intros E; injection E as E; f_equal; apply IHu, E.
Qed.

Lemma str_of_nat_inj (m n : nat) : str_of_nat m = str_of_nat n -> m = n.
Proof.
  intros E. apply Unsigned.to_uint_inj, uint_digits_inj, E.
Qed.

Lemma str_of_nat_nonempty (n : nat) : str_of_nat n <> [].
Proof.
  unfold str_of_nat.
  assert (Hn : Nat.to_uint n <> Decimal.Nil).
  { rewrite <- (Unsigned.of_to n) at 1. rewrite Unsigned.to_of.
    apply DecimalFacts.unorm_nonnil. }
  destruct (Nat.to_uint n); try discriminate. congruence.
Qed.

Lemma digits_have (f : N -> bool) (n : nat) :
  forallb f decimal_digits = true ->
  Forall (fun c => f c = true) (str_of_nat n).
Proof.
  intros Hf. eapply Forall_impl; [apply uint_digits_in|].
  intros c Hc. rewrite forallb_forall in Hf. apply Hf, Hc.
Qed.

Lemma str_of_nat_solid (n : nat) :
  Forall (fun c => py_isspace c = false) (str_of_nat n).
Proof.
  eapply Forall_impl; [apply (digits_have (fun c => negb (py_isspace c)))|].
  - reflexivity.
  - intros c Hc. apply negb_true_iff, Hc.
Qed.

Lemma map_fixed (f : N -> N) (s : pystr) :
  Forall (fun c => (f c =? c)%N = true) s -> map f s = s.
Proof.
  induction 1 as [|c s Hc _ IH]; simpl; [reflexivity|].
  apply N.eqb_eq in Hc. rewrite Hc, IH. reflexivity.
Qed.

Section NormalizeFacts.
Context `{PyCase}.

Lemma normalize_cons (c : N) (s : pystr) :
  normalize_game_name (c :: s) =
  strip (collapse_ws (remove_name_symbols (lower (c :: s)))).
Proof. reflexivity. Qed.

Lemma normalize_nonempty (s : pystr) :
  s <> [] ->
  normalize_game_name s =
  strip (collapse_ws (remove_name_symbols (lower s))).
Proof. destruct s; [congruence|reflexivity]. Qed.

(** The normal form of a plain prefix followed by a decimal number. *)
Lemma normalize_numbered (p : pystr) (n : nat) :
  forallb plain_cp p = true ->
  collapse_ws (remove_name_symbols (map ascii_lower_cp p)) <> [] ->
  lstrip (collapse_ws (remove_name_symbols (map ascii_lower_cp p)))
  = collapse_ws (remove_name_symbols (map ascii_lower_cp p)) ->
  normalize_game_name (p ++ str_of_nat n)
  = collapse_ws (remove_name_symbols (map ascii_lower_cp p))
    ++ str_of_nat n.
Proof.
  intros Hp Hne Hl.
  set (q := collapse_ws (remove_name_symbols (map ascii_lower_cp p))) in *.
  pose proof (str_of_nat_nonempty n) as Hd.
  pose proof (str_of_nat_solid n) as Hs.
  rewrite normalize_nonempty
    by (intros E; apply app_eq_nil in E as [_ E]; congruence).
  rewrite lower_plain.
  2:{ rewrite forallb_app, Hp. simpl.
      apply forallb_forall. intros c Hc.
      pose proof (digits_have plain_cp n eq_refl) as Hd'.
      rewrite List.Forall_forall in Hd'. apply Hd', Hc. }
  rewrite map_app.
  rewrite (map_fixed ascii_lower_cp (str_of_nat n))
    by (apply (digits_have (fun c => (ascii_lower_cp c =? c)%N)); reflexivity).
  unfold remove_name_symbols. rewrite List.filter_app.
  rewrite (filter_fixed _ (str_of_nat n))
    by (apply (digits_have (fun c => negb (is_name_symbol c))); reflexivity).
  rewrite collapse_ws_app_solid by assumption.
  fold (remove_name_symbols (map ascii_lower_cp p)). fold q.
  unfold strip.
  assert (Hq : lstrip (q ++ str_of_nat n) = q ++ str_of_nat n).
  { destruct q as [|c q'] eqn:Eq; [congruence|].
    pose proof (lstrip_head _ _ _ Hl) as Hc.
    simpl. rewrite Hc. reflexivity. }
  rewrite Hq. apply rstrip_app_solid; assumption.
Qed.
End NormalizeFacts.

(** C9. [normalize_game_name] is idempotent: normalising a normalised
    name changes nothing, for every string. *)
Theorem normalize_game_name_idempotent `{PyCase} (s : pystr) :
  normalize_game_name (normalize_game_name s) = normalize_game_name s.
Proof.
  destruct s as [|c s]; [reflexivity|].
  rewrite normalize_cons.
  set (t := collapse_ws (remove_name_symbols (lower (c :: s)))).
  assert (Hst : Forall lower_stable (strip t)).
  { apply Forall_strip, Forall_collapse_ws; [apply lower_stable_space|].
    apply Forall_filter_keep, lower_lands. }
  assert (Hsy : Forall (fun c => negb (is_name_symbol c) = true) (strip t)).
  { apply Forall_strip, Forall_collapse_ws; [reflexivity|].
    apply Forall_filter_true. }
  assert (Hco : collapsed (strip t) = true).
  { apply collapsed_strip, collapse_ws_collapsed. }
  destruct (strip t) as [|d r] eqn:E; [reflexivity|].
  rewrite normalize_cons, lower_fixes by exact Hst.
  unfold remove_name_symbols at 1. rewrite filter_fixed by exact Hsy.
  rewrite collapse_ws_fixed by exact Hco.
  rewrite <- E. apply strip_idem.
Qed.

(** C4. A name with capitals and a trade-mark sign and the same name in
    lower case without the sign have one normal form: lower-casing, symbol
    stripping and whitespace collapsing make
    [normalize_game_name "The Witcher 3™"] equal to
    [normalize_game_name "the witcher 3"]. *)
Theorem normalize_witcher `{PyCase} :
  normalize_game_name (py "The Witcher 3" ++ [cp_trademark])
  = normalize_game_name (py "the witcher 3")
  /\ normalize_game_name (py "the witcher 3") = py "the witcher 3".
Proof.
  split.
  - rewrite !normalize_nonempty by discriminate.
    rewrite !lower_plain by reflexivity. reflexivity.
  - rewrite normalize_nonempty by discriminate.
    rewrite lower_plain by reflexivity. reflexivity.
Qed.

Example normalize_spaces_and_signs :
  normalize_game_name (py "  Half-Life:   Alyx" ++ [cp_registered; 9%N])
  = py "halflife alyx".
Proof. reflexivity. Qed.

Example normalize_only_signs :
  normalize_game_name [cp_trademark; cp_copyright] = [].
Proof. reflexivity. Qed.

(** ** money_to_float *)

Lemma digits_value_some_digit (s : pystr) (acc m : Z) :
  s <> [] -> digits_value acc s = Some m -> existsb is_digit s = true.
Proof.
  destruct s as [|c s]; [congruence|]. intros _. simpl.
  destruct (is_digit c); [reflexivity|discriminate].
Qed.

Lemma split_dot_digits (s : pystr) :
  existsb is_digit ((split_dot s).1 ++ default [] (split_dot s).2)
  = existsb is_digit s.
Proof.
  induction s as [|c s IH]; [reflexivity|]. simpl.
  destruct (c =? 46)%N eqn:E.
  - apply N.eqb_eq in E. subst c. reflexivity.
  - destruct (split_dot s) as [a b]. simpl in *. rewrite IH. reflexivity.
Qed.

Lemma py_float_needs_digit (s : pystr) :
  existsb is_digit s = false -> py_float s = None.
Proof.
  intros Hs. unfold py_float.
  pose proof (split_dot_digits s) as Hd.
  destruct (split_dot s) as [ip fp]. simpl in Hd.
  destruct (ip ++ default [] fp) as [|c ds] eqn:E; [reflexivity|].
  destruct (digits_value 0 (c :: ds)) as [m|] eqn:Em; [|reflexivity].
  apply digits_value_some_digit in Em; [|discriminate]. congruence.
Qed.

Lemma replace_char_digits (a : N) (b s : pystr) :
  existsb is_digit b = false -> is_digit a = false ->
  existsb is_digit (replace_char a b s) = existsb is_digit s.
Proof.
  intros Hb Ha. induction s as [|c s IH]; [reflexivity|].
  unfold replace_char in *. simpl. rewrite existsb_app, IH.
  destruct (c =? a)%N eqn:E.
  - apply N.eqb_eq in E. subst c. rewrite Hb, Ha. reflexivity.
  - simpl. rewrite orb_false_r. reflexivity.
Qed.

Lemma resolve_separators_digits (s : pystr) :
  existsb is_digit (resolve_separators s) = existsb is_digit s.
Proof.
  unfold resolve_separators.
  destruct (contains 44 s && contains 46 s);
    [apply replace_char_digits; reflexivity|].
  destruct (contains 44 s); [apply replace_char_digits; reflexivity|].
  reflexivity.
Qed.

Lemma keep_price_chars_digits (s : pystr) :
  existsb is_digit (keep_price_chars s) = existsb is_digit s.
Proof.
  induction s as [|c s IH]; [reflexivity|].
  unfold keep_price_chars in *. simpl.
  destruct (is_digit c) eqn:E; simpl; [rewrite E; reflexivity|].
  destruct ((c =? 46)%N || (c =? 44)%N); simpl; rewrite ?E; exact IH.
Qed.

(** C3, as the code has it.  ["$19.99"] gives 19.99.  With both separators
    present every comma is deleted, so ["1,234.56"] gives 1234.56 and
    ["1.234,56"] gives 1.23456.  With commas only, the comma is the decimal
    separator: ["19,99"] gives 19.99.  A string for which [float] raises
    after this cleaning, and in particular every string without a digit,
    gives no value. *)
Theorem money_to_float_cases :
  returns_amount (money_to_float (py "$19.99")) 19.99
  /\ returns_amount (money_to_float (py "1,234.56")) 1234.56
  /\ returns_amount (money_to_float (py "1.234,56")) 1.23456
  /\ returns_amount (money_to_float (py "19,99")) 19.99
  /\ (forall txt,
        py_float (resolve_separators (keep_price_chars txt)) = None ->
        money_to_float txt = None)
  /\ (forall txt, existsb is_digit txt = false -> money_to_float txt = None).
Proof.
  assert (Hraise : forall txt,
            py_float (resolve_separators (keep_price_chars txt)) = None ->
            money_to_float txt = None).
  { intros txt Hf. unfold money_to_float.
    destruct txt; [reflexivity|].
    destruct (keep_price_chars (n :: txt)); [reflexivity|exact Hf]. }
  repeat split; try (vm_compute; reflexivity); [exact Hraise|].
  intros txt Hd. apply Hraise, py_float_needs_digit.
  rewrite resolve_separators_digits, keep_price_chars_digits. exact Hd.
Qed.

Lemma money_to_float_cases_witness :
  money_to_float (py "1.2.3") = None /\ money_to_float (py "N/A") = None.
Proof.
  split.
  - apply (proj1 (proj2 (proj2 (proj2 (proj2 money_to_float_cases))))).
    reflexivity.
  - apply (proj2 (proj2 (proj2 (proj2 (proj2 money_to_float_cases))))).
    reflexivity.
Defined.

(** C3 as stated fails: ["1.234,56"] does not give 1234.56. *)
Lemma money_to_float_dot_then_comma :
  ~ returns_amount (money_to_float (py "1.234,56")) 1234.56.
Proof. vm_compute. discriminate. Qed.

(** ** fetch *)

Section FetchFacts.
Variable net : pystr -> nat -> Attempt.

Lemma fetch_attempt_spec (url : pystr) (attempt : nat) :
  fetch_attempt net url attempt =
  match succeeded (net url attempt) with
  | Some html => (Ret (Returns html), [Get url])
  | None => (Ret FallsThrough, failed_attempt net url attempt)
  end.
Proof.
  unfold fetch_attempt, fetch_try, failed_attempt, succeeded, pause_after.
  destruct (net url attempt) as [status [e|html]|e].
  - destruct (status =? 200)%Z; [destruct e; reflexivity|].
    destruct (status =? 429)%Z; reflexivity.
  - destruct (status =? 200)%Z; [reflexivity|].
    destruct (status =? 429)%Z; reflexivity.
  - destruct e; reflexivity.
Qed.

Lemma fetch_loop_spec (url : pystr) (n a : nat) :
  exists r log,
    fetch_loop net url (seq a n) = (Ret r, log)
    /\ match r with
       | Some html =>
           exists k, k < n
             /\ succeeded (net url (a + k)) = Some html
             /\ (forall j, j < k -> succeeded (net url (a + j)) = None)
             /\ log = flat_map (failed_attempt net url) (seq a k) ++ [Get url]
       | None =>
           (forall j, j < n -> succeeded (net url (a + j)) = None)
           /\ log = flat_map (failed_attempt net url) (seq a n)
       end.
Proof.
  revert a. induction n as [|n IH]; intros a.
  - exists None, []. split; [reflexivity|]. split; [lia|reflexivity].
  - simpl seq. simpl fetch_loop. rewrite fetch_attempt_spec.
    destruct (succeeded (net url a)) as [html|] eqn:Ea.
    + exists (Some html), [Get url]. split; [reflexivity|].
      exists 0. rewrite Nat.add_0_r. repeat split; [lia|exact Ea|lia].
    + destruct (IH (S a)) as (r & log & Hrun & Hspec). rewrite Hrun.
      exists r, (failed_attempt net url a ++ log). split; [reflexivity|].
      destruct r as [html|].
      * destruct Hspec as (k & Hk & Hok & Hbefore & Hlog).
        exists (S k). repeat split.
        -- lia.
        -- replace (a + S k) with (S a + k) by lia. exact Hok.
        -- intros j Hj. destruct j as [|j]; [rewrite Nat.add_0_r; exact Ea|].
           replace (a + S j) with (S a + j) by lia. apply Hbefore. lia.
        -- rewrite Hlog. simpl. reflexivity.
      * destruct Hspec as [Hall Hlog]. split.
        -- intros j Hj. destruct j as [|j]; [rewrite Nat.add_0_r; exact Ea|].
           replace (a + S j) with (S a + j) by lia. apply Hall. lia.
        -- rewrite Hlog. reflexivity.
Qed.

Lemma gets_of_failed (url : pystr) (l : list nat) :
  length (List.filter is_get (flat_map (failed_attempt net url) l))
  = length l.
Proof.
  induction l as [|i l IH]; [reflexivity|]. simpl. rewrite IH. reflexivity.
Qed.

Lemma sleeps_of_failed (url : pystr) (l : list nat) :
  sleeps (flat_map (failed_attempt net url) l)
  = map (fun i => pause_after i (net url i)) l.
Proof.
  induction l as [|i l IH]; [reflexivity|].
  change (flat_map (failed_attempt net url) (i :: l))
    with (failed_attempt net url i ++ flat_map (failed_attempt net url) l).
  unfold sleeps in *. rewrite omap_app, IH. reflexivity.
Qed.
End FetchFacts.

(** C7. For every URL and every behaviour of the network, [fetch] returns
    (it never raises) after at most five requests.  It returns the body of
    the first attempt that answers 200 with a readable body; every attempt
    before it is followed by one pause: [3 * (attempt + 1)] seconds after
    a 429, 1 second after another status or a transport error, 2 seconds
    after a timeout.  When all five attempts fail it returns [None]. *)
Theorem fetch_retry_policy (net : pystr -> nat -> Attempt) (url : pystr) :
  exists r log,
    fetch net url = (Ret r, log)
    /\ length (List.filter is_get log) <= 5
    /\ match r with
       | Some html =>
           exists k, k < 5
             /\ succeeded (net url k) = Some html
             /\ (forall j, j < k -> succeeded (net url j) = None)
             /\ length (List.filter is_get log) = S k
             /\ sleeps log = map (fun i => pause_after i (net url i)) (seq 0 k)
       | None =>
           (forall j, j < 5 -> succeeded (net url j) = None)
           /\ length (List.filter is_get log) = 5
           /\ sleeps log = map (fun i => pause_after i (net url i)) (seq 0 5)
       end.
Proof.
  destruct (fetch_loop_spec net url 5 0) as (r & log & Hrun & Hspec).
  exists r, log. split; [exact Hrun|].
  destruct r as [html|].
  - destruct Hspec as (k & Hk & Hok & Hbefore & Hlog).
    assert (Hg : length (List.filter is_get log) = S k).
    { rewrite Hlog, List.filter_app, length_app, gets_of_failed, length_seq.
      simpl. lia. }
    split; [lia|]. exists k. repeat split; try assumption.
    rewrite Hlog. unfold sleeps. rewrite omap_app. fold (sleeps (flat_map (failed_attempt net url) (seq 0 k))).
    rewrite sleeps_of_failed. simpl. apply app_nil_r.
  - destruct Hspec as [Hall Hlog].
    assert (Hg : length (List.filter is_get log) = 5).
    { rewrite Hlog, gets_of_failed, length_seq. reflexivity. }
    split; [lia|]. repeat split; try assumption.
    rewrite Hlog. apply sleeps_of_failed.
Qed.

(** ** Reasoning about outcomes *)

Lemma wp_ret {A} (a : A) (st : State) Post Exc :
  Post a st -> wp (mret a) st Post Exc.
Proof. intros HP. exact HP. Qed.

Lemma wp_raise {A} (e : Exn) (st : State) (Post : A -> State -> Prop) Exc :
  Exc st -> wp (raise e) st Post Exc.
Proof. intros HE. exact HE. Qed.

Lemma wp_bind {A B} (m : M A) (k : A -> M B) (st : State) Post Exc :
  wp m st (fun a st' => wp (k a) st' Post Exc) Exc ->
  wp (m ≫= k) st Post Exc.
Proof.
  unfold wp, mbind, M_bind.
  destruct (m st) as [[a|e|] st']; auto.
Qed.

Lemma wp_mono {A} (m : M A) (st : State) (Post Post' : A -> State -> Prop)
    (Exc Exc' : State -> Prop) :
  wp m st Post Exc ->
  (forall a st', Post a st' -> Post' a st') ->
  (forall st', Exc st' -> Exc' st') ->
  wp m st Post' Exc'.
Proof.
  unfold wp. destruct (m st) as [[a|e|] st']; auto.
Qed.

Lemma wp_try {A} (m : M A) (h : Exn -> M A) (st : State) Post Exc :
  wp m st Post (fun st' => forall e, wp (h e) st' Post Exc) ->
  wp (try_except m h) st Post Exc.
Proof.
  unfold wp, try_except.
  destruct (m st) as [[a|e|] st']; auto.
  intros Hh. apply Hh.
Qed.

Lemma wp_returns {A} (m : M A) (st : State) Post :
  wp m st Post (fun _ => False) ->
  exists a st', m st = (Ret a, st') /\ Post a st'.
Proof.
  unfold wp. destruct (m st) as [[a|e|] st']; try tauto.
  intros HP. exists a, st'. split; [reflexivity|exact HP].
Qed.

Lemma wp_get_existing (st : State) Post Exc :
  Post (existing_games st) st -> wp get_existing st Post Exc.
Proof. intros HP. exact HP. Qed.

(** ** The search for a free synthetic name *)

Lemma search_free_ext (P P' : nat -> bool) (fuel n : nat) :
  (forall j, n <= j -> P j = P' j) ->
  search_free P fuel n = search_free P' fuel n.
Proof.
  revert n. induction fuel as [|fuel IH]; intros n Hext; [reflexivity|].
  simpl. rewrite <- (Hext n) by lia.
  destruct (P n); [|reflexivity]. apply IH. intros j Hj. apply Hext. lia.
Qed.

Lemma search_free_sound (P : nat -> bool) (fuel n c : nat) :
  search_free P fuel n = Some c -> n <= c /\ P c = false.
Proof.
  revert n. induction fuel as [|fuel IH]; intros n; [discriminate|].
  simpl. destruct (P n) eqn:E.
  - intros Hs. apply IH in Hs as [Hle Hc]. split; [lia|exact Hc].
  - intros [= <-]. split; [lia|exact E].
Qed.

(** Pigeonhole: an injective naming scheme has a free name among any
    [size taken + 1] consecutive counters. *)
Lemma search_free_finds (f : nat -> pystr) (taken : gset pystr)
    (fuel n : nat) :
  (forall i j, f i = f j -> i = j) ->
  size taken < fuel ->
  exists c, search_free (fun j => bool_decide (f j ∈ taken)) fuel n = Some c.
Proof.
  intros Hinj. revert taken n.
  induction fuel as [|fuel IH]; intros taken n Hsize; [lia|].
  simpl. destruct (bool_decide (f n ∈ taken)) eqn:E; [|eauto].
  apply bool_decide_eq_true in E.
  destruct (IH (taken ∖ {[f n]}) (S n)) as [c Hc].
  { assert (size (taken ∖ {[f n]}) = size taken - 1) as ->.
    { rewrite size_difference by set_solver. rewrite size_singleton. lia. }
    assert (Hpos : size taken <> 0) by (apply size_non_empty_iff; set_solver).
    lia. }
  exists c. rewrite <- Hc. apply search_free_ext.
  intros j Hj. apply bool_decide_ext.
  assert (Hne : f j <> f n) by (intros Heq; apply Hinj in Heq; lia).
  rewrite elem_of_difference, elem_of_singleton. tauto.
Qed.

(** ** Synthetic names and their normal forms *)

Section Names.
Context `{PyCase}.

Ltac numbered p n :=
  match goal with
  | |- normalize_game_name ?t = _ => change t with (p ++ str_of_nat n)
  end;
  rewrite normalize_numbered;
  [reflexivity | reflexivity | vm_compute; discriminate | reflexivity].

Lemma backfill_name_norm (site : pystr) (n : nat) :
  known_site site ->
  normalize_game_name (backfill_name site n)
  = py "exclusivo " ++ site ++ py " juego " ++ str_of_nat n.
Proof.
  intros [-> | [-> | ->]]; unfold backfill_name;
    rewrite upper_ascii by reflexivity.
  - numbered (py "Exclusivo STEAM Juego ") n.
  - numbered (py "Exclusivo GOG Juego ") n.
  - numbered (py "Exclusivo GMG Juego ") n.
Qed.

Lemma timeout_name_norm (site : pystr) (n : nat) :
  known_site site ->
  normalize_game_name (timeout_name site n)
  = py "timeout " ++ site ++ py " juego " ++ str_of_nat n.
Proof.
  intros [-> | [-> | ->]]; unfold timeout_name;
    rewrite upper_ascii by reflexivity.
  - numbered (py "Timeout STEAM Juego ") n.
  - numbered (py "Timeout GOG Juego ") n.
  - numbered (py "Timeout GMG Juego ") n.
Qed.

Lemma fallback_name_norm (site : pystr) (i : nat) :
  known_site site ->
  normalize_game_name (fallback_name site i)
  = py "juego " ++ site ++ py " #" ++ str_of_nat (i + 1).
Proof.
  intros [-> | [-> | ->]]; unfold fallback_name;
    rewrite upper_ascii by reflexivity.
  - numbered (py "Juego STEAM #") (i + 1).
  - numbered (py "Juego GOG #") (i + 1).
  - numbered (py "Juego GMG #") (i + 1).
Qed.

Lemma backfill_name_inj (site : pystr) (i j : nat) :
  known_site site ->
  normalize_game_name (backfill_name site i)
  = normalize_game_name (backfill_name site j) ->
  i = j.
Proof.
  intros Hk. rewrite !backfill_name_norm by exact Hk.
  intros E. do 3 apply app_inv_head in E. apply str_of_nat_inj, E.
Qed.

Lemma timeout_name_inj (site : pystr) (i j : nat) :
  known_site site ->
  normalize_game_name (timeout_name site i)
  = normalize_game_name (timeout_name site j) ->
  i = j.
Proof.
  intros Hk. rewrite !timeout_name_norm by exact Hk.
  intros E. do 3 apply app_inv_head in E. apply str_of_nat_inj, E.
Qed.

Lemma fallback_name_inj (site : pystr) (i j : nat) :
  known_site site ->
  normalize_game_name (fallback_name site i)
  = normalize_game_name (fallback_name site j) ->
  i = j.
Proof.
  intros Hk. rewrite !fallback_name_norm by exact Hk.
  intros E. do 3 apply app_inv_head in E. apply str_of_nat_inj in E. lia.
Qed.

Lemma fallback_not_backfill (s s' : pystr) (i c : nat) :
  known_site s -> known_site s' ->
  normalize_game_name (fallback_name s i)
  <> normalize_game_name (backfill_name s' c).
Proof.
  intros Hs Hs'. rewrite fallback_name_norm, backfill_name_norm by assumption.
  discriminate.
Qed.

Lemma fallback_not_timeout (s s' : pystr) (i c : nat) :
  known_site s -> known_site s' ->
  normalize_game_name (fallback_name s i)
  <> normalize_game_name (timeout_name s' c).
Proof.
  intros Hs Hs'. rewrite fallback_name_norm, timeout_name_norm by assumption.
  discriminate.
Qed.

Lemma fallback_other_site (s s' : pystr) (i j : nat) :
  known_site s -> known_site s' -> s <> s' ->
  normalize_game_name (fallback_name s i)
  <> normalize_game_name (fallback_name s' j).
Proof.
  intros Hs Hs' Hne. rewrite !fallback_name_norm by assumption.
  destruct Hs as [-> | [-> | ->]], Hs' as [-> | [-> | ->]];
    try congruence; discriminate.
Qed.

Lemma name_taken_union (mk : nat -> pystr) (seen existing : gset pystr)
    (c : nat) :
  name_taken mk seen existing c
  = bool_decide (normalize_game_name (mk c) ∈ seen ∪ existing).
Proof.
  unfold name_taken. set (x := normalize_game_name (mk c)).
  destruct (decide (x ∈ seen ∪ existing)) as [Hu|Hu].
  - rewrite (bool_decide_eq_true_2 _ Hu).
    apply elem_of_union in Hu as [Hu|Hu].
    + rewrite (bool_decide_eq_false_2 (x ∉ seen)) by tauto. reflexivity.
    + rewrite (bool_decide_eq_false_2 (x ∉ existing)) by tauto.
      rewrite andb_false_r. reflexivity.
  - rewrite (bool_decide_eq_false_2 _ Hu).
    apply not_elem_of_union in Hu as [Hs He].
    rewrite (bool_decide_eq_true_2 _ Hs), (bool_decide_eq_true_2 _ He).
    reflexivity.
Qed.

(** A free counter exists for every injective scheme. *)
Lemma free_counter (mk : nat -> pystr) (seen existing : gset pystr)
    (n : nat) :
  (forall i j, normalize_game_name (mk i) = normalize_game_name (mk j) ->
               i = j) ->
  exists c,
    search_free (name_taken mk seen existing)
                (S (size (seen ∪ existing))) n = Some c
    /\ n <= c
    /\ (normalize_game_name (mk c) ∉ seen)
    /\ (normalize_game_name (mk c) ∉ existing).
Proof.
  intros Hinj.
  destruct (search_free_finds (fun j => normalize_game_name (mk j))
              (seen ∪ existing) (S (size (seen ∪ existing))) n Hinj)
    as [c Hc]; [apply Nat.lt_succ_diag_r|].
  exists c.
  assert (Hs : search_free (name_taken mk seen existing)
                 (S (size (seen ∪ existing))) n = Some c).
  { rewrite <- Hc. apply search_free_ext. intros j _.
    apply name_taken_union. }
  split; [exact Hs|].
  apply search_free_sound in Hs as [Hle Hfree].
  rewrite name_taken_union in Hfree.
  apply bool_decide_eq_false in Hfree.
  split; [exact Hle|]. set_solver.
Qed.
End Names.

(** ** The harvesting loop *)

Lemma subseteq_add (x : pystr) (E0 E : gset pystr) :
  E0 ⊆ E -> E0 ⊆ {[x]} ∪ E.
Proof. set_solver. Qed.

Lemma elem_of_add_here (x : pystr) (E : gset pystr) : x ∈ {[x]} ∪ E.
Proof. set_solver. Qed.

Lemma elem_of_add_there (x y : pystr) (E : gset pystr) :
  y ∈ E -> y ∈ {[x]} ∪ E.
Proof. set_solver. Qed.

Section HarvestFacts.
Context `{PyCase} (w : World).

Lemma fresh_in_nil (E : gset pystr) : fresh_in E [] E.
Proof.
  split; [reflexivity|]. split; [constructor|].
  intros g Hg. apply elem_of_nil in Hg. contradiction.
Qed.

Lemma fresh_in_snoc (E0 E : gset pystr) (results : list Game) (g : Game) :
  fresh_in E0 results E -> identity g ∉ E ->
  fresh_in E0 (results ++ [g]) ({[identity g]} ∪ E).
Proof.
  intros (Hsub & Hnd & Hin) Hg. split; [apply subseteq_add, Hsub|]. split.
  - rewrite map_app. apply NoDup_app. split; [exact Hnd|]. split.
    + intros x Hx Hx'. simpl in Hx'. apply list_elem_of_singleton in Hx'.
      subst x. apply list_elem_of_fmap in Hx as (g' & Hg' & Hel).
      apply Hin in Hel as [Hel _]. unfold identity in *. congruence.
    + simpl. apply NoDup_singleton.
  - intros g' Hg'. apply elem_of_app in Hg' as [Hg'|Hg'].
    + apply Hin in Hg' as [H1 H2].
      split; [apply elem_of_add_there, H1|exact H2].
    + apply list_elem_of_singleton in Hg'. subst g'.
      split; [apply elem_of_add_here|].
      intros Hbad. apply Hg, Hsub, Hbad.
Qed.

Lemma wp_accept (E0 : gset pystr) (r : option Game)
    (acc : list Game * gset pystr) (st : State) :
  fresh_in E0 acc.1 (existing_games st) ->
  wp (accept r acc) st
     (fun acc' st' => fresh_in E0 acc'.1 (existing_games st'))
     (fun _ => False).
Proof.
  intros Hf. unfold accept.
  destruct r as [game|]; [|exact Hf].
  destruct (game_name game) as [|c nm] eqn:En; [exact Hf|].
  rewrite <- En.
  apply wp_bind, wp_get_existing.
  destruct (bool_decide (normalize_game_name (game_name game) ∉ acc.2)
            && bool_decide (normalize_game_name (game_name game)
                            ∉ existing_games st)) eqn:Ec; [|exact Hf].
  apply andb_true_iff in Ec as [_ Ec]. apply bool_decide_eq_true in Ec.
  unfold wp. simpl. apply fresh_in_snoc; assumption.
Qed.

Lemma wp_accept_done (E0 : gset pystr) (done : list (option Game))
    (acc : list Game * gset pystr) (st : State) :
  fresh_in E0 acc.1 (existing_games st) ->
  wp (accept_done done acc) st
     (fun acc' st' => fresh_in E0 acc'.1 (existing_games st'))
     (fun _ => False).
Proof.
  revert acc st. induction done as [|r done IH]; intros acc st Hf.
  - exact Hf.
  - simpl. apply wp_bind.
    eapply wp_mono; [apply (wp_accept E0), Hf| |auto].
    intros acc' st' Hf'. apply IH, Hf'.
Qed.

Lemma wp_time_now (st : State) (Post : Q -> State -> Prop) Exc :
  Post (time_time w (time_reads st))
    {| existing_games := existing_games st;
       time_reads := S (time_reads st);
       draws := draws st;
       trace := trace st |} ->
  wp (time_now w) st Post Exc.
Proof. intros HP. exact HP. Qed.

Lemma wp_emit (evs : list Event) (st : State)
    (Post : unit -> State -> Prop) Exc :
  Post tt {| existing_games := existing_games st;
          time_reads := time_reads st;
          draws := draws st;
          trace := trace st ++ evs |} ->
  wp (emit evs) st Post Exc.
Proof. intros HP. exact HP. Qed.

Lemma batch_empty_iff (concurrency : Z) (seeds : list pystr) (idx : nat) :
  idx < length seeds ->
  take (Z.to_nat (Z.min (concurrency * 3)
                        (Z.of_nat (length seeds) - Z.of_nat idx)))
       (drop idx seeds) = []
  <-> (concurrency <= 0)%Z.
Proof.
  intros Hidx.
  assert (Hd : length (drop idx seeds) = length seeds - idx)
    by apply length_drop.
  split.
  - intros Ht. apply (f_equal length) in Ht.
    rewrite length_take, Hd in Ht. simpl in Ht. lia.
  - intros Hc. apply length_zero_iff_nil.
    rewrite length_take, Hd. lia.
Qed.

(** The loop keeps the accepted records fresh.  It raises only with a
    concurrency of zero or less, where the first batch is empty, and
    then nothing was accepted.  The fuel suffices. *)
Lemma wp_harvest (E0 : gset pystr) (site : pystr) (target : nat)
    (concurrency : Z) (deadline : Q) (seeds : list pystr) :
  forall fuel idx attempts acc st,
    length seeds - idx < fuel ->
    fresh_in E0 acc.1 (existing_games st) ->
    wp (harvest w fuel site target concurrency deadline seeds idx attempts acc)
       st
       (fun acc' st' =>
          fresh_in E0 acc'.1 (existing_games st')
          /\ ((concurrency <= 0)%Z ->
              acc' = acc /\ existing_games st' = existing_games st))
       (fun st' => (concurrency <= 0)%Z
                   /\ existing_games st' = existing_games st).
Proof.
  induction fuel as [|fuel IH]; intros idx attempts acc st Hfuel Hf; [lia|].
  simpl harvest.
  destruct (negb (length acc.1 <? target)); [apply wp_ret; auto|].
  destruct (negb (idx <? length seeds)) eqn:Eidx; [apply wp_ret; auto|].
  apply negb_false_iff, Nat.ltb_lt in Eidx.
  apply wp_bind, wp_time_now.
  destruct (Qle_bool deadline (time_time w (time_reads st)));
    [apply wp_ret; auto|].
  destruct (negb (attempts <? length seeds)); [apply wp_ret; auto|].
  pose proof (batch_empty_iff concurrency seeds idx Eidx) as Hbatch.
  set (batch_size := Z.min (concurrency * 3)
                           (Z.of_nat (length seeds) - Z.of_nat idx)) in *.
  set (batch := take (Z.to_nat batch_size) (drop idx seeds)) in *.
  apply wp_bind, wp_emit. apply wp_bind.
  destruct batch as [|u batch'] eqn:Eb.
  - apply wp_raise. split; [apply Hbatch; reflexivity|reflexivity].
  - assert (Hpos : (0 < concurrency)%Z).
    { destruct (Z_lt_le_dec 0 concurrency) as [Hc|Hc]; [exact Hc|].
      apply Hbatch in Hc. discriminate. }
    unfold asyncio_wait. apply wp_ret. apply wp_bind.
    eapply wp_mono; [apply (wp_accept_done E0), Hf| |intros ? []].
    intros acc' st' Hf'.
    destruct (target <=? length acc'.1); [apply wp_ret; split; [exact Hf'|lia]|].
    eapply wp_mono; [apply IH; [|exact Hf']| |].
    + subst batch_size. lia.
    + intros acc'' st'' [Hf'' _]. split; [exact Hf''|lia].
    + intros st'' [Hc _]. lia.
Qed.

Lemma fresh_in_app_l (E0 E : gset pystr) (a b : list Game) :
  fresh_in E0 (a ++ b) E -> fresh_in E0 a E.
Proof.
  intros (Hsub & Hnd & Hin). split; [exact Hsub|]. split.
  - rewrite map_app in Hnd. apply NoDup_app in Hnd as [Hnd _]. exact Hnd.
  - intros g Hg. apply Hin, elem_of_app. left. exact Hg.
Qed.

Lemma fresh_in_take (E0 E : gset pystr) (n : nat) (l : list Game) :
  fresh_in E0 l E -> fresh_in E0 (take n l) E.
Proof.
  intros Hf. rewrite <- (take_drop n l) in Hf.
  apply fresh_in_app_l in Hf. exact Hf.
Qed.

Lemma wp_draw (st : State) (Post : RandomFields -> State -> Prop) Exc :
  Post (random_draw w (draws st))
    {| existing_games := existing_games st;
       time_reads := time_reads st;
       draws := S (draws st);
       trace := trace st |} ->
  wp (draw w) st Post Exc.
Proof. intros HP. exact HP. Qed.

Lemma wp_add_existing (n : pystr) (st : State)
    (Post : unit -> State -> Prop) Exc :
  Post tt {| existing_games := {[n]} ∪ existing_games st;
          time_reads := time_reads st;
          draws := draws st;
          trace := trace st |} ->
  wp (add_existing n) st Post Exc.
Proof. intros HP. exact HP. Qed.

Lemma backfill_succ (k : nat) (site : pystr) (counter : nat)
    (acc : list Game * gset pystr) :
  backfill w (S k) site counter acc =
  (existing ← get_existing;
   match search_free (name_taken (backfill_name site) acc.2 existing)
                     (S (size (acc.2 ∪ existing))) counter with
   | None => starve
   | Some c =>
       r ← draw w;
       _ ← add_existing (normalize_game_name (backfill_name site c));
       backfill w k site (S c)
         (acc.1 ++ [synthetic_game (backfill_name site c) site
                                   (game_page c) r],
          {[normalize_game_name (backfill_name site c)]} ∪ acc.2)
   end).
Proof. reflexivity. Qed.

(** The synthetic fill adds exactly [k] fresh records named by the
    scheme; the search for a free name always ends. *)
Lemma wp_backfill (E0 : gset pystr) (site : pystr) :
  known_site site ->
  forall k counter acc st,
    fresh_in E0 acc.1 (existing_games st) ->
    wp (backfill w k site counter acc) st
       (fun acc' st' =>
          fresh_in E0 acc'.1 (existing_games st')
          /\ length acc'.1 = length acc.1 + k
          /\ (forall g, g ∈ acc'.1 ->
                g ∈ acc.1 \/ named_by (backfill_name site) g))
       (fun _ => False).
Proof.
  intros Hk. induction k as [|k IH]; intros counter acc st Hf.
  - apply wp_ret. split; [exact Hf|]. split; [lia|]. auto.
  - rewrite backfill_succ. apply wp_bind, wp_get_existing.
    destruct (free_counter (backfill_name site) acc.2 (existing_games st)
                counter (fun i j => backfill_name_inj site i j Hk))
      as (c & Hs & _ & _ & Hfree).
    cbv beta. rewrite Hs.
    apply wp_bind, wp_draw, wp_bind, wp_add_existing.
    eapply wp_mono; [apply IH| |auto].
    + simpl. apply (fresh_in_snoc E0 (existing_games st) acc.1
                      (synthetic_game (backfill_name site c) site
                         (game_page c) (random_draw w (draws st)))).
      * exact Hf.
      * exact Hfree.
    + simpl. intros acc' st' (Hf' & Hlen & Hnames).
      split; [exact Hf'|]. split.
      * rewrite Hlen, length_app. simpl. lia.
      * intros g Hg. apply Hnames in Hg as [Hg|Hg]; [|right; exact Hg].
        apply elem_of_app in Hg as [Hg|Hg]; [left; exact Hg|].
        apply list_elem_of_singleton in Hg. subst g.
        right. exists c. reflexivity.
Qed.

Lemma wp_fallback_loop (site : pystr) (indices : list nat)
    (acc : list Game) (st : State) :
  wp (fallback_loop w site indices acc) st
     (fun res st' =>
        map game_name res
        = map game_name acc ++ map (fallback_name site) indices
        /\ existing_games st' = existing_games st
        /\ trace st' = trace st
        /\ time_reads st' = time_reads st)
     (fun _ => False).
Proof.
  revert acc st. induction indices as [|i rest IH]; intros acc st.
  - apply wp_ret. rewrite app_nil_r. auto.
  - simpl fallback_loop. apply wp_bind, wp_draw.
    eapply wp_mono; [apply IH| |auto].
    simpl. intros res st' (Hn & He & Ht & Hr).
    repeat split; try assumption.
    rewrite Hn, map_app, <- app_assoc. reflexivity.
Qed.

Lemma wp_fallback (site : pystr) (target : nat) (st : State) :
  wp (fallback w site target) st
     (fun res st' =>
        map game_name res = map (fallback_name site) (seq 0 target)
        /\ existing_games st' = existing_games st
        /\ trace st' = trace st
        /\ time_reads st' = time_reads st)
     (fun _ => False).
Proof. apply wp_fallback_loop. Qed.

Lemma wp_seeds_for (site : pystr) (st : State) :
  wp (seeds_for w site) st
     (fun found st' =>
        (known_site site /\ found = Some (seed_urls w site)
         /\ existing_games st' = existing_games st)
        \/ (~ known_site site /\ found = None /\ st' = st))
     (fun _ => False).
Proof.
  unfold seeds_for, known_site.
  repeat case_bool_decide; unfold wp; simpl;
    first [left; split; [tauto|split; reflexivity]
          |right; split; [tauto|split; reflexivity]].
Qed.

Lemma timeout_fill_succ (k : nat) (site : pystr) (counter : nat)
    (results : list Game) :
  timeout_fill w (S k) site counter results =
  (existing ← get_existing;
   match search_free (name_taken (timeout_name site) ∅ existing)
                     (S (size existing)) counter with
   | None => starve
   | Some c =>
       r ← draw w;
       _ ← add_existing (normalize_game_name (timeout_name site c));
       timeout_fill w k site (S c)
         (results ++ [synthetic_game (timeout_name site c) site
                                     (game_page c) r])
   end).
Proof. reflexivity. Qed.

(** The fill for a source reached after the deadline appends exactly
    [k] fresh records named by the timeout scheme and touches neither
    the clock nor the network. *)
Lemma wp_timeout_fill (E0 : gset pystr) (site : pystr)
    (results : list Game) :
  known_site site ->
  forall k counter new st,
    fresh_in E0 new (existing_games st) ->
    Forall (fun g => named_by (timeout_name site) g /\ game_site g = site)
           new ->
    wp (timeout_fill w k site counter (results ++ new)) st
       (fun results' st' =>
          exists new',
            results' = results ++ new'
            /\ fresh_in E0 new' (existing_games st')
            /\ length new' = length new + k
            /\ Forall (fun g => named_by (timeout_name site) g
                                /\ game_site g = site) new'
            /\ trace st' = trace st
            /\ time_reads st' = time_reads st)
       (fun _ => False).
Proof.
  intros Hk. induction k as [|k IH]; intros counter new st Hf Hn.
  - apply wp_ret. exists new.
    split; [reflexivity|]. split; [exact Hf|]. split; [lia|].
    split; [exact Hn|]. split; reflexivity.
  - rewrite timeout_fill_succ. apply wp_bind, wp_get_existing.
    destruct (free_counter (timeout_name site) ∅ (existing_games st)
                counter (fun i j => timeout_name_inj site i j Hk))
      as (c & Hs & _ & _ & Hfree).
    cbv beta. rewrite (left_id_L ∅ (∪)) in Hs. rewrite Hs.
    apply wp_bind, wp_draw, wp_bind, wp_add_existing.
    rewrite <- app_assoc.
    eapply wp_mono; [apply IH| |auto].
    + simpl. apply (fresh_in_snoc E0 (existing_games st) new
                      (synthetic_game (timeout_name site c) site
                         (game_page c) (random_draw w (draws st)))).
      * exact Hf.
      * exact Hfree.
    + apply Forall_app. split; [exact Hn|].
      constructor; [|constructor]. split; [exists c|]; reflexivity.
    + simpl. intros results' st' (new' & Hr & Hf' & Hlen & Hn' & Ht & Hc).
      exists new'.
      split; [exact Hr|]. split; [exact Hf'|]. split.
      { rewrite Hlen, length_app. simpl. lia. }
      split; [exact Hn'|]. split; assumption.
Qed.

(** The [try] block of [scrape_site].  It returns fresh records; for a
    known source with at least one seed, exactly [target] of them.  It
    raises only with a concurrency of zero or less, before anything was
    accepted. *)
Lemma wp_scrape_site_body (site : pystr) (target : nat) (concurrency : Z)
    (deadline : Q) (st : State) :
  wp (scrape_site_body w site target concurrency deadline) st
     (fun res st' =>
        fresh_in (existing_games st) res (existing_games st')
        /\ (known_site site -> seed_urls w site <> [] ->
            length res = target)
        /\ ((concurrency <= 0)%Z ->
            Forall (named_by (backfill_name site)) res)
        /\ (~ known_site site \/ seed_urls w site = [] ->
            res = [] /\ existing_games st' = existing_games st))
     (fun st' =>
        (concurrency <= 0)%Z /\ known_site site
        /\ seed_urls w site <> []
        /\ existing_games st' = existing_games st).
Proof.
  unfold scrape_site_body. apply wp_bind.
  eapply wp_mono; [apply wp_seeds_for| |intros ? []].
  intros found st1 [(Hk & -> & He)|(Hk & -> & ->)].
  2:{ apply wp_ret. split; [apply fresh_in_nil|].
      split; [tauto|]. split; [constructor|]. auto. }
  destruct (seed_urls w site) as [|u seeds'] eqn:Es.
  { apply wp_ret. rewrite He. split; [apply fresh_in_nil|].
    split; [congruence|]. split; [constructor|]. auto. }
  apply wp_bind. unfold new_semaphore.
  destruct (concurrency <? 0)%Z eqn:Ec.
  { apply wp_raise. apply Z.ltb_lt in Ec.
    split; [lia|]. split; [exact Hk|]. split; [discriminate|exact He]. }
  apply Z.ltb_ge in Ec. apply wp_ret, wp_bind.
  eapply wp_mono;
    [apply (wp_harvest (existing_games st) site target concurrency deadline
              (u :: seeds') (S (length (u :: seeds'))) 0 0 ([], ∅) st1)| |].
  - lia.
  - rewrite He. apply fresh_in_nil.
  - intros acc st2 [Hf Hzero]. apply wp_bind.
    destruct (length acc.1 <? target) eqn:Elen.
    + apply Nat.ltb_lt in Elen.
      eapply wp_mono; [apply (wp_backfill (existing_games st) site Hk), Hf
                      | |intros ? []].
      intros acc' st3 (Hf' & Hlen & Hnames). apply wp_ret.
      split; [apply fresh_in_take, Hf'|].
      split; [intros _ _; rewrite length_take; lia|].
      split; [|intros [Hbad|Hbad]; [tauto|discriminate]].
      intros Hc. apply Hzero in Hc as [-> _].
      apply Forall_forall. intros g Hg.
      apply subseteq_take in Hg. apply Hnames in Hg as [Hg|Hg]; [|exact Hg].
      apply elem_of_nil in Hg. contradiction.
    + apply Nat.ltb_ge in Elen. apply wp_ret, wp_ret.
      split; [apply fresh_in_take, Hf|].
      split; [intros _ _; rewrite length_take; lia|].
      split; [|intros [Hbad|Hbad]; [tauto|discriminate]].
      intros Hc. apply Hzero in Hc as [-> _]. simpl.
      rewrite take_nil. constructor.
  - intros st2 [Hc He2]. split; [exact Hc|]. split; [exact Hk|].
    split; [discriminate|congruence].
Qed.

(** [scrape_site] always returns.  Either the [try] block returned, or
    it raised and the handler built the list of [target] records named
    by the fallback scheme without touching the shared set. *)
Lemma wp_scrape_site (site : pystr) (target : nat) (concurrency : Z)
    (deadline : Q) (st : State) :
  wp (scrape_site w site target concurrency deadline) st
     (fun res st' =>
        (fresh_in (existing_games st) res (existing_games st')
         /\ (known_site site -> seed_urls w site <> [] ->
             length res = target)
         /\ ((concurrency <= 0)%Z ->
             Forall (named_by (backfill_name site)) res))
        \/ ((concurrency <= 0)%Z /\ known_site site
            /\ seed_urls w site <> []
            /\ existing_games st' = existing_games st
            /\ map game_name res
               = map (fallback_name site) (seq 0 target)))
     (fun _ => False).
Proof.
  unfold scrape_site. apply wp_try.
  eapply wp_mono; [apply wp_scrape_site_body| |].
  - intros res st' (Hf & Hlen & Hn & _). left. auto.
  - intros st1 (Hc & Hk & Hs & He) e.
    eapply wp_mono; [apply wp_fallback| |auto].
    intros res st' (Hn & He' & _). right.
    split; [exact Hc|]. split; [exact Hk|]. split; [exact Hs|].
    split; [congruence|exact Hn].
Qed.

(** ** The loop over the sources *)

Lemma TARGET_known (site : pystr) :
  known_site site -> exists n, TARGET_get site = mret n.
Proof.
  intros [-> | [-> | ->]]; eexists; reflexivity.
Qed.

Lemma run_inv_nil (concurrency : Z) (E : gset pystr) :
  run_inv concurrency [] [] E.
Proof.
  split; [constructor|].
  split; [|intros _]; intros g Hg; apply elem_of_nil in Hg; contradiction.
Qed.

(** Appending records that were checked against the shared set. *)
Lemma run_inv_app_fresh (concurrency : Z) (done : list pystr)
    (out new : list Game) (E0 E : gset pystr) (site : pystr) :
  run_inv concurrency done out E0 ->
  fresh_in E0 new E ->
  known_site site ->
  ((concurrency <= 0)%Z ->
   Forall (fun g => named_by (backfill_name site) g
                    \/ named_by (timeout_name site) g) new) ->
  run_inv concurrency (site :: done) (out ++ new) E.
Proof.
  intros (Hnd & Hin & Hsyn) (Hsub & Hnd' & Hin') Hk Hnew.
  split; [|split].
  - rewrite map_app. apply NoDup_app. split; [exact Hnd|].
    split; [|exact Hnd'].
    intros x Hx Hx'.
    apply list_elem_of_fmap in Hx as (g & -> & Hg).
    apply list_elem_of_fmap in Hx' as (g' & Heq & Hg').
    destruct (Hin g Hg) as [HE|(Hc & s & Hs & _ & (i & Hi))].
    + apply Hin' in Hg' as [_ Hg']. apply Hg'. rewrite <- Heq. exact HE.
    + specialize (Hnew Hc). rewrite Forall_forall in Hnew.
      unfold identity in Heq. rewrite Hi in Heq.
      destruct (Hnew g' Hg') as [(c & Hc')|(c & Hc')]; rewrite Hc' in Heq.
      * exact (fallback_not_backfill s site i c Hs Hk Heq).
      * exact (fallback_not_timeout s site i c Hs Hk Heq).
  - intros g Hg. apply elem_of_app in Hg as [Hg|Hg].
    + destruct (Hin g Hg) as [HE|(Hc & s & Hs & Hd & Hn)].
      * left. apply Hsub, HE.
      * right. split; [exact Hc|]. exists s.
        split; [exact Hs|]. split; [apply elem_of_cons; auto|exact Hn].
    + left. apply Hin', Hg.
  - intros Hc g Hg. apply elem_of_app in Hg as [Hg|Hg].
    + destruct (Hsyn Hc g Hg) as (s & Hs & Hd & Hn). exists s.
      split; [exact Hs|]. split; [apply elem_of_cons; auto|exact Hn].
    + specialize (Hnew Hc). rewrite Forall_forall in Hnew.
      exists site. split; [exact Hk|]. split; [apply elem_of_cons; auto|].
      destruct (Hnew g Hg) as [Hn|Hn]; auto.
Qed.

(** Appending the list of the [except] block. *)
Lemma run_inv_app_fallback (concurrency : Z) (done : list pystr)
    (out new : list Game) (E : gset pystr) (site : pystr) (target : nat) :
  run_inv concurrency done out E ->
  (concurrency <= 0)%Z ->
  known_site site ->
  site ∉ done ->
  map game_name new = map (fallback_name site) (seq 0 target) ->
  run_inv concurrency (site :: done) (out ++ new) E.
Proof.
  intros (Hnd & Hin & Hsyn) Hc Hk Hfresh Hnames.
  assert (Hnamed : forall g, g ∈ new -> named_by (fallback_name site) g).
  { intros g Hg.
    assert (Hm : game_name g ∈ map game_name new)
      by (apply list_elem_of_fmap; eauto).
    rewrite Hnames in Hm.
    apply list_elem_of_fmap in Hm as (i & Hi & _). exists i. exact Hi. }
  split; [|split].
  - rewrite map_app. apply NoDup_app. split; [exact Hnd|]. split.
    + intros x Hx Hx'.
      apply list_elem_of_fmap in Hx as (g & -> & Hg).
      apply list_elem_of_fmap in Hx' as (g' & Heq & Hg').
      destruct (Hnamed g' Hg') as (i & Hi).
      unfold identity in Heq. rewrite Hi in Heq.
      destruct (Hsyn Hc g Hg) as (s & Hs & Hd & Hn).
      assert (Hne : site <> s) by (intros ->; contradiction).
      destruct Hn as [(c & Hn)|[(c & Hn)|(c & Hn)]]; rewrite Hn in Heq.
      * exact (fallback_not_backfill site s i c Hk Hs (eq_sym Heq)).
      * exact (fallback_not_timeout site s i c Hk Hs (eq_sym Heq)).
      * exact (fallback_other_site site s i c Hk Hs Hne (eq_sym Heq)).
    + assert (Hid : map identity new
                    = map (fun i => normalize_game_name
                                      (fallback_name site i))
                          (seq 0 target)).
      { unfold identity. rewrite <- (map_map game_name normalize_game_name).
        rewrite Hnames, map_map. reflexivity. }
      rewrite Hid. apply NoDup_fmap_2_strong; [|apply NoDup_seq].
      intros i j _ _ Hij. apply (fallback_name_inj site i j Hk Hij).
  - intros g Hg. apply elem_of_app in Hg as [Hg|Hg].
    + destruct (Hin g Hg) as [HE|(_ & s & Hs & Hd & Hn)]; [left; exact HE|].
      right. split; [exact Hc|]. exists s.
      split; [exact Hs|]. split; [apply elem_of_cons; auto|exact Hn].
    + right. split; [exact Hc|]. exists site.
      split; [exact Hk|]. split; [apply elem_of_cons; auto|auto].
  - intros _ g Hg. apply elem_of_app in Hg as [Hg|Hg].
    + destruct (Hsyn Hc g Hg) as (s & Hs & Hd & Hn). exists s.
      split; [exact Hs|]. split; [apply elem_of_cons; auto|exact Hn].
    + exists site. split; [exact Hk|].
      split; [apply elem_of_cons; auto|auto].
Qed.

Lemma wp_run_site (concurrency : Z) (deadline : Q) (site : pystr)
    (done : list pystr) (out : list Game) (st : State) :
  known_site site ->
  site ∉ done ->
  run_inv concurrency done out (existing_games st) ->
  wp (run_site w site concurrency deadline out) st
     (fun out' st' =>
        run_inv concurrency (site :: done) out' (existing_games st'))
     (fun _ => False).
Proof.
  intros Hk Hnew Hinv. unfold run_site.
  destruct (TARGET_known site Hk) as [n Hn]. rewrite Hn.
  apply wp_bind, wp_time_now.
  destruct (Qle_bool deadline (time_time w (time_reads st))).
  - apply wp_bind, wp_ret.
    rewrite <- (app_nil_r out) at 1.
    eapply wp_mono;
      [apply (wp_timeout_fill (existing_games st) site out Hk n 1 []);
       [apply fresh_in_nil|constructor]
      | |auto].
    intros out' st' (new & -> & Hf & _ & Hnamed & _).
    apply (run_inv_app_fresh concurrency done out new (existing_games st));
      try assumption.
    intros _. eapply Forall_impl; [exact Hnamed|].
    intros g [Hg _]. right. exact Hg.
  - apply wp_bind, wp_ret, wp_bind.
    eapply wp_mono; [apply wp_scrape_site| |auto].
    intros res st' [(Hf & _ & Hnamed)|(Hc & _ & _ & He & Hnames)];
      apply wp_ret.
    + apply (run_inv_app_fresh concurrency done out res (existing_games st));
        try assumption.
      intros Hc. eapply Forall_impl; [exact (Hnamed Hc)|].
      intros g Hg. left. exact Hg.
    + rewrite He.
      apply (run_inv_app_fallback concurrency done out res _ site n);
        assumption.
Qed.

Lemma wp_run_sites (concurrency : Z) (deadline : Q) :
  forall sites done out st,
    Forall known_site sites ->
    NoDup sites ->
    (forall s, s ∈ sites -> s ∉ done) ->
    run_inv concurrency done out (existing_games st) ->
    wp (run_sites w sites concurrency deadline out) st
       (fun out' st' =>
          exists done', run_inv concurrency done' out' (existing_games st'))
       (fun _ => False).
Proof.
  induction sites as [|site rest IH]; intros done out st Hk Hnd Hfresh Hinv.
  - apply wp_ret. exists done. exact Hinv.
  - simpl run_sites. apply wp_bind.
    apply Forall_cons in Hk as [Hk Hrest].
    apply NoDup_cons in Hnd as [Hsite Hnd].
    eapply wp_mono;
      [apply (wp_run_site concurrency deadline site done out st Hk);
       [apply Hfresh, elem_of_cons; auto|exact Hinv]
      | |auto].
    intros out' st' Hinv'. apply (IH (site :: done)); try assumption.
    intros s Hs Hin. apply elem_of_cons in Hin as [->|Hin];
      [contradiction|].
    apply (Hfresh s); [apply elem_of_cons; auto|exact Hin].
Qed.

Lemma SITES_known : Forall known_site SITES.
Proof.
  unfold SITES, known_site.
  constructor; [left; reflexivity|].
  constructor; [right; left; reflexivity|].
  constructor; [right; right; reflexivity|]. constructor.
Qed.

Lemma SITES_NoDup : NoDup SITES.
Proof.
  apply (bool_decide_unpack _). vm_compute. exact I.
Qed.

(** [run] returns the list handed to the writers; the [except] block
    of [run] is never entered. *)
Lemma run_returns (timeout concurrency : Z) :
  exists out st',
    run w timeout concurrency = (Ret out, st')
    /\ (exists done, run_inv concurrency done out (existing_games st'))
    /\ run_body w timeout concurrency initial_state = (Ret out, st').
Proof.
  assert (Hbody : wp (run_body w timeout concurrency) initial_state
                     (fun out st' =>
                        exists done,
                          run_inv concurrency done out (existing_games st'))
                     (fun _ => False)).
  { unfold run_body. apply wp_bind, wp_time_now.
    apply (wp_run_sites concurrency _ SITES []).
    - apply SITES_known.
    - apply SITES_NoDup.
    - intros s _. apply not_elem_of_nil.
    - apply run_inv_nil. }
  apply wp_returns in Hbody as (out & st' & Hrun & Hinv).
  exists out, st'. unfold run, try_except. rewrite Hrun. auto.
Qed.
End HarvestFacts.

(** ** scrape_site *)

Lemma TARGET_entry (site : pystr) :
  known_site site ->
  exists n, TARGET_get site = mret n /\ In (site, n) TARGET.
Proof.
  intros [-> | [-> | ->]]; eexists; (split; [reflexivity|]);
    unfold TARGET; simpl; tauto.
Qed.

(** For a known source with at least one seed, [scrape_site] returns
    exactly [target] records, whatever the network, the clock and the
    concurrency do. *)
Lemma scrape_site_meets_quota `{PyCase} (w : World) (site : pystr)
    (target : nat) (concurrency : Z) (deadline : Q) (st : State) :
  known_site site ->
  seed_urls w site <> [] ->
  exists out st',
    scrape_site w site target concurrency deadline st = (Ret out, st')
    /\ length out = target.
Proof.
  intros Hk Hs.
  destruct (wp_returns _ _ _
              (wp_scrape_site w site target concurrency deadline st))
    as (out & st' & Hrun & Hpost).
  exists out, st'. split; [exact Hrun|].
  destruct Hpost as [(_ & Hlen & _)|(_ & _ & _ & _ & Hnames)].
  - apply Hlen; assumption.
  - apply (f_equal (@length _)) in Hnames.
    rewrite !length_map, length_seq in Hnames. exact Hnames.
Qed.

(** C1 fails on the code: with no network the steam seeder returns no
    URL, and [scrape_site], asked for the configured 80 records, returns
    the empty list. *)
Theorem scrape_site_offline_misses_quota :
  exists out st',
    scrape_site offline_world (py "steam") 80 20 400 initial_state
    = (Ret out, st')
    /\ length out = 0
    /\ In (py "steam", 80) TARGET.
Proof.
  eexists _, _. split; [reflexivity|]. split; [reflexivity|].
  unfold TARGET. simpl. tauto.
Qed.

(** C2 fails on the code: when the seeder returns no URL, [scrape_site]
    returns the empty list at once; no synthetic record is made and the
    shared set is not touched. *)
Theorem scrape_site_zero_seeds `{PyCase} (w : World) (site : pystr)
    (target : nat) (concurrency : Z) (deadline : Q) (st : State) :
  seed_urls w site = [] ->
  exists st',
    scrape_site w site target concurrency deadline st = (Ret [], st')
    /\ existing_games st' = existing_games st
    /\ draws st' = draws st.
Proof.
  intros Hs.
  unfold scrape_site, try_except, scrape_site_body, seeds_for.
  repeat case_bool_decide; unfold mbind, M_bind; simpl; rewrite ?Hs;
    eexists; (split; [reflexivity|]); split; reflexivity.
Qed.

Lemma scrape_site_zero_seeds_witness :
  exists st',
    scrape_site offline_world (py "gmg") 50 20 400 initial_state
    = (Ret [], st')
    /\ existing_games st' = existing_games initial_state
    /\ draws st' = draws initial_state.
Proof.
  apply (scrape_site_zero_seeds offline_world (py "gmg") 50 20 400
           initial_state).
  reflexivity.
Defined.

Section FallbackFacts.
Context `{PyCase} (w : World).

Lemma fallback_loop_exact (site : pystr) (n : nat) :
  forall a acc st,
    fallback_loop w site (seq a n) acc st
    = (Ret (acc ++ map (fun j => synthetic_game
                                   (fallback_name site (a + j)) site
                                   (game_page (a + j))
                                   (random_draw w (draws st + j)))
                       (seq 0 n)),
       with_draws st (draws st + n)).
Proof.
  induction n as [|n IH]; intros a acc st.
  - simpl. rewrite app_nil_r. unfold mret, M_ret, with_draws.
    destruct st as [E r d t]. simpl. rewrite Nat.add_0_r. reflexivity.
  - simpl seq. simpl fallback_loop.
    unfold mbind, M_bind, draw. simpl.
    rewrite IH. simpl. unfold with_draws. simpl.
    rewrite <- app_assoc. simpl. rewrite !Nat.add_0_r.
    f_equal; [|f_equal; lia].
    f_equal. f_equal. f_equal.
    rewrite <- seq_shift, map_map.
    apply map_ext. intros j.
    rewrite !Nat.add_succ_r. reflexivity.
Qed.

Lemma fallback_exact (site : pystr) (target : nat) (st : State) :
  fallback w site target st
  = (Ret (fallback_list w site target (draws st)),
     with_draws st (draws st + target)).
Proof.
  unfold fallback. rewrite fallback_loop_exact. reflexivity.
Qed.

Lemma fallback_list_length (site : pystr) (target d : nat) :
  length (fallback_list w site target d) = target.
Proof.
  unfold fallback_list. rewrite length_map, length_seq. reflexivity.
Qed.
End FallbackFacts.

(** On a standard output that takes every message, [scrape_site] returns
    for every source, quota, concurrency, deadline, world and state.
    Whenever its [try] block raises, what it returns is the list of the
    [except] block: exactly [target] synthetic records, named by the
    fallback scheme. *)
Lemma scrape_site_quiet_returns `{PyCase} (w : World) (site : pystr)
    (target : nat) (concurrency : Z) (deadline : Q) (st : State) :
  exists out st',
    scrape_site w site target concurrency deadline st = (Ret out, st')
    /\ forall e st1,
         scrape_site_body w site target concurrency deadline st
         = (Raise e, st1) ->
         out = fallback_list w site target (draws st1)
         /\ length out = target.
Proof.
  destruct (wp_returns _ _ _
              (wp_scrape_site w site target concurrency deadline st))
    as (out & st' & Hrun & _).
  exists out, st'. split; [exact Hrun|].
  intros e st1 Hbody.
  unfold scrape_site, try_except in Hrun. rewrite Hbody in Hrun.
  rewrite fallback_exact in Hrun. injection Hrun as <- _.
  split; [reflexivity|apply fallback_list_length].
Qed.

(** The [try] block does raise: a negative concurrency makes
    [asyncio.Semaphore] raise [ValueError]. *)
Lemma scrape_site_body_raises :
  exists st1,
    scrape_site_body online_world (py "steam") 2 (-1) 400 initial_state
    = (Raise ValueError, st1).
Proof. eexists. reflexivity. Qed.

(** ... and so does a concurrency of zero, where the first batch is empty
    and [asyncio.wait] raises [ValueError]. *)
Lemma scrape_site_body_raises_on_zero :
  exists st1,
    scrape_site_body online_world (py "gog") 2 0 400 initial_state
    = (Raise ValueError, st1).
Proof. eexists. reflexivity. Qed.

(** *** The console output *)

Section ConsoleFacts.
Context `{PyCase} (w : World).
Variable stdout : pystr -> option Exn.
Variable exn_text : Exn -> pystr.

(** On a standard output that takes every message the function with
    its [print] calls is the function without them. *)
Lemma console_scrape_site_quiet (site : pystr) (target : nat)
    (concurrency : Z) (deadline : Q) (st : State) :
  (forall msg, stdout msg = None) ->
  Console.scrape_site w stdout exn_text site target concurrency deadline st
  = scrape_site w site target concurrency deadline st.
Proof.
  intros Hall.
  assert (Hbody : Console.scrape_site_body w stdout site target concurrency
                    deadline st
                  = scrape_site_body w site target concurrency deadline st).
  { unfold Console.scrape_site_body, scrape_site_body, Console.print.
    unfold mbind, M_bind, mret, M_ret. rewrite Hall. cbv beta iota.
    destruct (seeds_for w site st) as [[[seeds|]|e|] st1];
      cbv beta iota; try reflexivity.
    rewrite Hall. cbv beta iota.
    destruct seeds as [|u seeds]; [rewrite Hall|]; reflexivity. }
  unfold Console.scrape_site, scrape_site, try_except. rewrite Hbody.
  destruct (scrape_site_body w site target concurrency deadline st)
    as [[out|e|] st1]; try reflexivity.
  unfold Console.fallback, Console.print, mbind, M_bind, mret, M_ret.
  rewrite Hall. reflexivity.
Qed.

(** The [try] block with its [print] calls runs as the one without
    them, or raises. *)
Lemma console_body_cases (site : pystr) (target : nat) (concurrency : Z)
    (deadline : Q) (st : State) :
  Console.scrape_site_body w stdout site target concurrency deadline st
  = scrape_site_body w site target concurrency deadline st
  \/ exists e st1,
       Console.scrape_site_body w stdout site target concurrency deadline st
       = (Raise e, st1).
Proof.
  unfold Console.scrape_site_body, scrape_site_body, Console.print.
  unfold mbind, M_bind, mret, M_ret, raise.
  destruct (stdout (Console.starting site)) as [e|]; [right; eauto|].
  cbv beta iota.
  destruct (seeds_for w site st) as [[[seeds|]|e|] st1];
    cbv beta iota; try (left; reflexivity).
  destruct (stdout (Console.found_urls (length seeds) site)) as [e|];
    [right; eauto|].
  cbv beta iota. destruct seeds as [|u seeds]; [|left; reflexivity].
  destruct (stdout (Console.no_urls site)) as [e|]; [right; eauto|].
  left. reflexivity.
Qed.

(** When the message of the [except] block can be written, no exception
    leaves [scrape_site], whatever happens to the other messages; and
    whenever the [try] block raised, the result is the list of the
    [except] block. *)
Lemma console_scrape_site_returns (site : pystr) (target : nat)
    (concurrency : Z) (deadline : Q) (st : State) :
  (forall e, stdout (Console.error_in exn_text site e) = None) ->
  exists out st',
    Console.scrape_site w stdout exn_text site target concurrency deadline st
    = (Ret out, st')
    /\ forall e st1,
         Console.scrape_site_body w stdout site target concurrency deadline
           st = (Raise e, st1) ->
         out = fallback_list w site target (draws st1)
         /\ length out = target.
Proof.
  intros Hh.
  assert (Hhandler : forall e st1,
            Console.fallback w stdout exn_text site target e st1
            = fallback w site target st1).
  { intros e st1.
    unfold Console.fallback, Console.print, mbind, M_bind, mret, M_ret.
    rewrite Hh. reflexivity. }
  assert (Hraise : forall e st1,
            Console.scrape_site_body w stdout site target concurrency
              deadline st = (Raise e, st1) ->
            exists out st',
              Console.scrape_site w stdout exn_text site target concurrency
                deadline st = (Ret out, st')
              /\ out = fallback_list w site target (draws st1)
              /\ length out = target).
  { intros e st1 Hb. unfold Console.scrape_site, try_except.
    rewrite Hb, Hhandler, fallback_exact. eexists _, _.
    split; [reflexivity|]. split; [reflexivity|apply fallback_list_length]. }
  destruct (console_body_cases site target concurrency deadline st)
    as [Hsame|(e & st1 & Hb)].
  - pose proof (wp_scrape_site_body w site target concurrency deadline st)
      as Hwp.
    unfold wp in Hwp. rewrite <- Hsame in Hwp.
    destruct (Console.scrape_site_body w stdout site target concurrency
                deadline st) as [[out|e|] st1] eqn:Hb; [| |contradiction].
    + exists out, st1. unfold Console.scrape_site, try_except. rewrite Hb.
      split; [reflexivity|]. intros e st2 [=].
    + destruct (Hraise e st1 eq_refl) as (out & st' & Hrun & Hout).
      exists out, st'. split; [exact Hrun|].
      intros e' st2 [= <- <-]. exact Hout.
  - destruct (Hraise e st1 Hb) as (out & st' & Hrun & Hout).
    exists out, st'. split; [exact Hrun|].
    intros e' st2 Hb'. rewrite Hb in Hb'. injection Hb' as <- <-. exact Hout.
Qed.
End ConsoleFacts.

(** C8. An exception does leave [scrape_site].  On a standard output
    encoded as ASCII, for each of the three sources and every quota,
    concurrency, deadline, world and state: the seeder runs, the message
    that reports the number of links cannot be written, the [except]
    block is entered, its own message cannot be written either, and the
    [ValueError] of that [print] leaves the function.  No list is
    returned, no worker task was created and the shared set is as
    before. *)
Theorem scrape_site_ascii_stdout_raises `{PyCase} (w : World)
    (exn_text : Exn -> pystr) (site : pystr) (target : nat)
    (concurrency : Z) (deadline : Q) (st : State) :
  known_site site ->
  exists st',
    Console.scrape_site w Console.ascii_stdout exn_text site target
      concurrency deadline st
    = (Raise ValueError, st')
    /\ trace st' = trace st ++ [Discover site]
    /\ existing_games st' = existing_games st
    /\ draws st' = draws st.
Proof.
  intros [-> | [-> | ->]];
    (eexists; split; [reflexivity|]; split; [reflexivity|];
     split; reflexivity).
Qed.

Lemma scrape_site_ascii_stdout_raises_witness :
  exists st',
    Console.scrape_site online_world Console.ascii_stdout (fun _ => [])
      (py "steam") 80 20 400 initial_state
    = (Raise ValueError, st')
    /\ trace st' = trace initial_state ++ [Discover (py "steam")]
    /\ existing_games st' = existing_games initial_state
    /\ draws st' = draws initial_state.
Proof.
  apply (@scrape_site_ascii_stdout_raises ascii_case online_world
           (fun _ => []) (py "steam") 80 20 400 initial_state).
  left. reflexivity.
Defined.

(** On a closed standard output the first [print] of the [try] block
    raises and so does the one of the [except] block, for every source:
    nothing is done and nothing is returned. *)
Lemma scrape_site_closed_stdout_raises `{PyCase} (w : World)
    (exn_text : Exn -> pystr) (site : pystr) (target : nat)
    (concurrency : Z) (deadline : Q) (st : State) :
  Console.scrape_site w Console.closed_stdout exn_text site target
    concurrency deadline st
  = (Raise ValueError, st).
Proof. reflexivity. Qed.

(** C10. When the [try] block of [scrape_site] raises, the call returns
    the fallback list, which is a function of the source, the quota and
    the random draws only, and leaves the shared set as it was: the
    identities of these records are neither looked up in it nor added to
    it.  When the [try] block returns, the call returns the same list and
    every record of it (harvested or backfilled) has its identity in the
    shared set. *)
Theorem scrape_site_fallback_frame `{PyCase} (w : World) (site : pystr)
    (target : nat) (concurrency : Z) (deadline : Q) (st : State) :
  match scrape_site_body w site target concurrency deadline st with
  | (Raise e, st1) =>
      scrape_site w site target concurrency deadline st
      = (Ret (fallback_list w site target (draws st1)),
         with_draws st1 (draws st1 + target))
      /\ existing_games (with_draws st1 (draws st1 + target))
         = existing_games st
  | (Ret out, st1) =>
      scrape_site w site target concurrency deadline st = (Ret out, st1)
      /\ forall g, g ∈ out -> identity g ∈ existing_games st1
  | (Starved, _) => False
  end.
Proof.
  pose proof (wp_scrape_site_body w site target concurrency deadline st)
    as Hbody.
  unfold wp in Hbody. unfold scrape_site, try_except.
  destruct (scrape_site_body w site target concurrency deadline st)
    as [[out|e|] st1]; [| |exact Hbody].
  - split; [reflexivity|]. destruct Hbody as ((_ & _ & Hin) & _).
    intros g Hg. apply Hin, Hg.
  - split; [apply fallback_exact|].
    destruct Hbody as (_ & _ & _ & He). exact He.
Qed.

(** The fallback list does not look at the shared set: the identity of
    its first record is already there, and that of its second record is
    not there afterwards. *)
Lemma fallback_ignores_shared_set :
  exists g1 g2 st',
    scrape_site online_world (py "steam") 2 (-1) 400 crowded_state
    = (Ret [g1; g2], st')
    /\ (identity g1 ∈ existing_games crowded_state)
    /\ (identity g2 ∉ existing_games st')
    /\ existing_games st' = existing_games crowded_state.
Proof.
  eexists _, _, _. split; [reflexivity|].
  split; [apply (bool_decide_unpack _); vm_compute; exact I|].
  split; [apply (bool_decide_unpack _); vm_compute; exact I|reflexivity].
Qed.

(** ** run *)

(** C5. When the clock has reached the deadline at the moment [run]
    turns to a source, the pass for that source performs no discovery and
    dispatches no fetch (the trace of network operations is unchanged)
    and appends exactly the source's quota of synthetic records, named by
    the timeout scheme, fresh with respect to the shared set and entered
    in it. *)
Theorem run_site_after_deadline `{PyCase} (w : World) (site : pystr)
    (concurrency : Z) (deadline : Q) (results : list Game) (st : State) :
  known_site site ->
  Qle_bool deadline (time_time w (time_reads st)) = true ->
  exists n new st',
    In (site, n) TARGET
    /\ run_site w site concurrency deadline results st
       = (Ret (results ++ new), st')
    /\ length new = n
    /\ trace st' = trace st
    /\ Forall (fun g => named_by (timeout_name site) g /\ game_site g = site)
              new
    /\ fresh_in (existing_games st) new (existing_games st').
Proof.
  intros Hk Hlate.
  destruct (TARGET_entry site Hk) as (n & Hget & Hin).
  assert (Hwp : wp (run_site w site concurrency deadline results) st
                   (fun out st' =>
                      exists new,
                        out = results ++ new
                        /\ length new = n
                        /\ trace st' = trace st
                        /\ Forall (fun g => named_by (timeout_name site) g
                                            /\ game_site g = site) new
                        /\ fresh_in (existing_games st) new
                                    (existing_games st'))
                   (fun _ => False)).
  { unfold run_site. rewrite Hget. apply wp_bind, wp_time_now.
    rewrite Hlate. apply wp_bind, wp_ret.
    rewrite <- (app_nil_r results) at 1.
    eapply wp_mono;
      [apply (wp_timeout_fill w (existing_games st) site results Hk n 1 []);
       [apply fresh_in_nil|constructor]
      | |auto].
    intros out st' (new & -> & Hf & Hlen & Hnamed & Ht & _).
    exists new. repeat (split; [solve [auto]|]). exact Hf. }
  apply wp_returns in Hwp as (out & st' & Hrun & new & -> & Hrest).
  exists n, new, st'. split; [exact Hin|]. split; [exact Hrun|exact Hrest].
Qed.

Lemma run_site_after_deadline_witness :
  exists n new st',
    In (py "gmg", n) TARGET
    /\ run_site late_world (py "gmg") 20 400 [] initial_state
       = (Ret ([] ++ new), st')
    /\ length new = n
    /\ trace st' = trace initial_state
    /\ Forall (fun g => named_by (timeout_name (py "gmg")) g
                        /\ game_site g = py "gmg") new
    /\ fresh_in (existing_games initial_state) new (existing_games st').
Proof.
  apply (run_site_after_deadline late_world (py "gmg") 20 400 []
           initial_state).
  - right. right. reflexivity.
  - reflexivity.
Defined.


(** ** Runs on the sample worlds *)

(** The scenario of quota 5 and concurrency 2 with three valid and two
    invalid pages: three real records, then two synthetic ones. *)
Example scrape_site_three_real_two_synthetic :
  exists out st',
    scrape_site mixed_world (py "gog") 5 2 400 initial_state = (Ret out, st')
    /\ map game_name out
       = [py "Game a"; py "Game b"; py "Game c";
          py "Exclusivo GOG Juego 1"; py "Exclusivo GOG Juego 2"]
    /\ trace st'
       = [Discover (py "gog");
          Dispatch (py "gog") (py "a"); Dispatch (py "gog") (py "b");
          Dispatch (py "gog") (py "c"); Dispatch (py "gog") (py "d");
          Dispatch (py "gog") (py "e")].
Proof. eexists _, _. split; [vm_compute; reflexivity|]. split; reflexivity. Qed.

(** More records than the quota are cut to the quota. *)
Example scrape_site_truncates :
  exists out st',
    scrape_site online_world (py "steam") 2 5 400 initial_state
    = (Ret out, st')
    /\ map game_name out = [py "Game a"; py "Game b"]
    /\ size (existing_games st') = 3.
Proof. eexists _, _. split; [vm_compute; reflexivity|]. split; reflexivity. Qed.

(** Without network the whole run writes an empty list. *)
Example run_offline_empty :
  exists st', run offline_world 400 20 = (Ret [], st').
Proof. eexists. vm_compute. reflexivity. Qed.

(** * Further properties *)

(** ** money_to_float *)

Lemma digits_value_nonneg (s : pystr) (acc m : Z) :
  (0 <= acc)%Z -> digits_value acc s = Some m -> (0 <= m)%Z.
Proof.
  revert acc. induction s as [|c s IH]; intros acc Hacc; simpl.
  - intros [= <-]. exact Hacc.
  - destruct (is_digit c); [|discriminate].
    apply IH. lia.
Qed.

Lemma py_float_nonneg (s : pystr) (q : Q) :
  py_float s = Some q -> (0 <= q)%Q.
Proof.
  unfold py_float. destruct (split_dot s) as [ip fp].
  destruct (ip ++ default [] fp) as [|c ds]; [discriminate|].
  destruct (digits_value 0 (c :: ds)) as [m|] eqn:Em; [|discriminate].
  intros [= <-]. apply digits_value_nonneg in Em; [|lia].
  unfold Qle. simpl. lia.
Qed.

Lemma money_to_float_clean (txt : pystr) :
  money_to_float txt =
  match keep_price_chars txt with
  | [] => None
  | clean => py_float (resolve_separators clean)
  end.
Proof.
  destruct txt as [|c txt]; [reflexivity|]. unfold money_to_float.
  destruct (keep_price_chars (c :: txt)); reflexivity.
Qed.

(** X1. [money_to_float] never returns a negative amount: a minus sign is
    one of the characters it drops. *)
Theorem money_to_float_nonnegative (txt : pystr) (q : Q) :
  money_to_float txt = Some q -> (0 <= q)%Q.
Proof.
  rewrite money_to_float_clean.
  destruct (keep_price_chars txt); [discriminate|].
  apply py_float_nonneg.
Qed.

Lemma money_to_float_nonnegative_witness :
  money_to_float (py "-5.00") = Some (Qmake 500 100)
  /\ (0 <= Qmake 500 100)%Q.
Proof.
  split; [reflexivity|].
  apply (money_to_float_nonnegative (py "-5.00")). reflexivity.
Defined.

Lemma contains_occurrences (c : N) (s : pystr) :
  contains c s = true <-> 0 < occurrences c s.
Proof.
  unfold contains, occurrences. induction s as [|x s IH]; simpl.
  - split; [discriminate|lia].
  - destruct (c =? x)%N; simpl; [split; [lia|reflexivity]|exact IH].
Qed.

Lemma occurrences_keep (c : N) (s : pystr) :
  (is_digit c || (c =? 46)%N || (c =? 44)%N) = true ->
  occurrences c (keep_price_chars s) = occurrences c s.
Proof.
  intros Hc. unfold occurrences, keep_price_chars.
  induction s as [|x s IH]; simpl; [reflexivity|].
  destruct (c =? x)%N eqn:E.
  - apply N.eqb_eq in E. subst x. rewrite Hc. simpl.
    rewrite N.eqb_refl. simpl. rewrite IH. reflexivity.
  - destruct (is_digit x || (x =? 46)%N || (x =? 44)%N); simpl;
      rewrite ?E; exact IH.
Qed.

Lemma occurrences_cons (c x : N) (s : pystr) :
  occurrences c (x :: s)
  = (if (c =? x)%N then 1 else 0) + occurrences c s.
Proof.
  unfold occurrences. cbn [List.filter].
  destruct (c =? x)%N; reflexivity.
Qed.

Lemma occurrences_app (c : N) (a b : pystr) :
  occurrences c (a ++ b) = occurrences c a + occurrences c b.
Proof.
  unfold occurrences. rewrite List.filter_app, length_app. reflexivity.
Qed.

Lemma occurrences_commas_to_dots (s : pystr) :
  occurrences 46 (replace_char 44 [46%N] s)
  = occurrences 44 s + occurrences 46 s.
Proof.
  induction s as [|x s IH]; [reflexivity|].
  change (replace_char 44 [46%N] (x :: s))
    with ((if (x =? 44)%N then [46%N] else [x])
          ++ replace_char 44 [46%N] s).
  rewrite occurrences_app, IH, !occurrences_cons.
  destruct (x =? 44)%N eqn:E44.
  - apply N.eqb_eq in E44. subst x. reflexivity.
  - rewrite occurrences_cons. rewrite (N.eqb_sym 44 x), E44.
    change (occurrences 46 []) with 0. cbv iota.
    destruct (46 =? x)%N; lia.
Qed.

Lemma digits_value_dot (s : pystr) (acc : Z) :
  0 < occurrences 46 s -> digits_value acc s = None.
Proof.
  revert acc. induction s as [|x s IH]; intros acc.
  - unfold occurrences. simpl. lia.
  - rewrite occurrences_cons. cbn [digits_value].
    destruct (46 =? x)%N eqn:E.
    + apply N.eqb_eq in E. subst x. reflexivity.
    + intros Hs. destruct (is_digit x); [apply IH, Hs|reflexivity].
Qed.

Lemma split_dot_occurrences (s : pystr) :
  occurrences 46 ((split_dot s).1 ++ default [] (split_dot s).2)
  = occurrences 46 s - 1.
Proof.
  induction s as [|x s IH]; [reflexivity|].
  rewrite occurrences_cons. cbn [split_dot].
  destruct (x =? 46)%N eqn:E.
  - apply N.eqb_eq in E. subst x. cbn [fst snd default app].
    rewrite N.eqb_refl. cbv iota. unfold id. lia.
  - destruct (split_dot s) as [a b]. cbn [fst snd] in *.
    change ((x :: a) ++ default [] b) with (x :: (a ++ default [] b)).
    rewrite occurrences_cons, (N.eqb_sym 46 x), E, IH.
    cbv iota. lia.
Qed.

Lemma py_float_two_dots (s : pystr) :
  2 <= occurrences 46 s -> py_float s = None.
Proof.
  intros Hs. unfold py_float.
  pose proof (split_dot_occurrences s) as Ho.
  destruct (split_dot s) as [ip fp]. simpl in Ho.
  destruct (ip ++ default [] fp) as [|c ds] eqn:E; [reflexivity|].
  rewrite digits_value_dot; [reflexivity|lia].
Qed.

(** X3. A text without a dot and with two or more commas gives no value:
    every comma becomes a dot and [float] rejects the result.  So
    ["1,234,567"] is not read as a number. *)
Theorem money_to_float_many_commas (txt : pystr) :
  contains 46 txt = false ->
  2 <= occurrences 44 txt ->
  money_to_float txt = None.
Proof.
  intros Hdot Hcommas. rewrite money_to_float_clean.
  assert (H44 : occurrences 44 (keep_price_chars txt) = occurrences 44 txt)
    by (apply occurrences_keep; reflexivity).
  assert (H46 : occurrences 46 (keep_price_chars txt) = occurrences 46 txt)
    by (apply occurrences_keep; reflexivity).
  assert (Hno : occurrences 46 txt = 0).
  { destruct (occurrences 46 txt) eqn:E; [reflexivity|].
    assert (Hc : contains 46 txt = true)
      by (apply contains_occurrences; lia).
    congruence. }
  destruct (keep_price_chars txt) as [|c clean] eqn:Ek; [reflexivity|].
  apply py_float_two_dots. unfold resolve_separators.
  assert (Hc44 : contains 44 (c :: clean) = true)
    by (apply contains_occurrences; lia).
  assert (Hc46 : contains 46 (c :: clean) = false).
  { destruct (contains 46 (c :: clean)) eqn:E; [|reflexivity].
    apply contains_occurrences in E. lia. }
  rewrite Hc44, Hc46. simpl andb. cbv iota.
  rewrite occurrences_commas_to_dots. lia.
Qed.

Lemma money_to_float_many_commas_witness :
  money_to_float (py "$1,234,567") = None.
Proof.
  apply money_to_float_many_commas; [reflexivity|].
  vm_compute. lia.
Defined.

(** ** normalize_game_name *)

(** X4. A normalised name holds none of the six symbols of the character
    class (the trademark, registered and copyright signs, the colon, the
    apostrophe and the hyphen), no whitespace other than single spaces
    between words, no whitespace at either end, and only code points that
    lower-casing leaves alone. *)
Theorem normalize_game_name_shape `{PyCase} (s : pystr) :
  Forall (fun c => is_name_symbol c = false) (normalize_game_name s)
  /\ collapsed (normalize_game_name s) = true
  /\ strip (normalize_game_name s) = normalize_game_name s
  /\ Forall lower_stable (normalize_game_name s).
Proof.
  destruct s as [|c s].
  - repeat split; constructor.
  - rewrite normalize_cons.
    split; [|split; [|split]].
    + eapply Forall_impl;
        [apply Forall_strip, Forall_collapse_ws;
         [|apply (Forall_filter_true (fun c => negb (is_name_symbol c)))]|].
      * reflexivity.
      * intros x Hx. apply negb_true_iff, Hx.
    + apply collapsed_strip, collapse_ws_collapsed.
    + apply strip_idem.
    + apply Forall_strip, Forall_collapse_ws; [apply lower_stable_space|].
      apply Forall_filter_keep, lower_lands.
Qed.

(** ** fetch *)

Lemma pause_after_bounds (attempt : nat) (a : Attempt) :
  (1 <= pause_after attempt a <= 3 * (Z.of_nat attempt + 1))%Z.
Proof.
  unfold pause_after.
  destruct a as [status [e|html]|e];
    try destruct (status =? 200)%Z; try destruct (status =? 429)%Z;
    try destruct e; lia.
Qed.

Lemma total_pauses_bounds (net : pystr -> nat -> Attempt) (url : pystr)
    (k a : nat) :
  (Z.of_nat k
   <= total (map (fun i => pause_after i (net url i)) (seq a k))
   <= total (map (fun i => 3 * (Z.of_nat i + 1)) (seq a k)))%Z.
Proof.
  revert a. induction k as [|k IH]; intros a; [simpl; lia|].
  simpl seq. simpl map. unfold total in *. simpl fold_right.
  specialize (IH (S a)).
  pose proof (pause_after_bounds a (net url a)). lia.
Qed.

Lemma fetch_sleeps (net : pystr -> nat -> Attempt) (url : pystr) :
  exists k,
    k <= 5
    /\ sleeps (fetch net url).2
       = map (fun i => pause_after i (net url i)) (seq 0 k)
    /\ length (List.filter is_get (fetch net url).2) <= 5
    /\ (k = 5 \/ exists html, (fetch net url).1 = Ret (Some html)).
Proof.
  unfold fetch.
  destruct (fetch_loop_spec net url 5 0) as (r & log & -> & Hspec).
  simpl fst. simpl snd. destruct r as [html|].
  - destruct Hspec as (k & Hk & _ & _ & ->). exists k.
    split; [lia|]. split; [|split].
    + unfold sleeps. rewrite omap_app.
      fold (sleeps (flat_map (failed_attempt net url) (seq 0 k))).
      rewrite sleeps_of_failed. simpl. apply app_nil_r.
    + rewrite List.filter_app, length_app, gets_of_failed, length_seq.
      simpl. lia.
    + right. eauto.
  - destruct Hspec as [_ ->]. exists 5.
    split; [lia|]. split; [apply sleeps_of_failed|]. split; [|left; lia].
    rewrite gets_of_failed, length_seq. lia.
Qed.

(** X6. Whatever the network does, the pauses of one [fetch] add up to at
    most 45 seconds, and to at least one second per failed attempt. *)
Theorem fetch_total_pause (net : pystr -> nat -> Attempt) (url : pystr) :
  (Z.of_nat (length (sleeps (fetch net url).2))
   <= total (sleeps (fetch net url).2) <= 45)%Z.
Proof.
  destruct (fetch_sleeps net url) as (k & Hk & -> & _).
  rewrite length_map, length_seq.
  pose proof (total_pauses_bounds net url k 0) as [Hlo Hhi].
  split; [exact Hlo|].
  eapply Z.le_trans; [exact Hhi|].
  do 5 (destruct k as [|k]; [vm_compute; discriminate|]).
  destruct k as [|k]; [vm_compute; discriminate|lia].
Qed.

(** ** scrape_game *)

Lemma fetch_returns (net : pystr -> nat -> Attempt) (url : pystr) :
  exists r, (fetch net url).1 = Ret r.
Proof.
  unfold fetch.
  destruct (fetch_loop_spec net url 5 0) as (r & log & -> & _). eauto.
Qed.

Lemma parser_for_known (parse_steam parse_gog parse_gmg : pystr -> option Game)
    (site : pystr) (parse : pystr -> option Game) :
  parser_for parse_steam parse_gog parse_gmg site = Some parse ->
  known_site site.
Proof.
  unfold parser_for, known_site.
  repeat case_bool_decide; intros [=]; tauto.
Qed.

(** X7. [scrape_game] never raises and performs exactly the requests of
    one [fetch] (at most five), also for a source it does not know.  A
    record it returns comes from the parser of a known source applied to
    a non-empty fetched body, has a non-empty name and carries the
    requested URL. *)
Theorem scrape_game_result (net : pystr -> nat -> Attempt)
    (parse_steam parse_gog parse_gmg : pystr -> option Game)
    (site url : pystr) :
  exists r,
    (scrape_game net parse_steam parse_gog parse_gmg site url).1 = Ret r
    /\ (scrape_game net parse_steam parse_gog parse_gmg site url).2
       = (fetch net url).2
    /\ length (List.filter is_get (fetch net url).2) <= 5
    /\ match r with
       | Some game =>
           game_url game = url
           /\ game_name game <> []
           /\ known_site site
           /\ exists html parse base,
                (fetch net url).1 = Ret (Some html)
                /\ html <> []
                /\ parser_for parse_steam parse_gog parse_gmg site
                   = Some parse
                /\ parse html = Some base
                /\ game = with_url base url
       | None => True
       end.
Proof.
  destruct (fetch_sleeps net url) as (_ & _ & _ & Hgets & _).
  destruct (fetch_returns net url) as [body Hbody].
  unfold scrape_game.
  destruct (fetch net url) as [res log]. simpl in Hbody. subst res.
  simpl in Hgets.
  destruct body as [[|c html]|];
    try (exists None; repeat split; assumption).
  destruct (parser_for parse_steam parse_gog parse_gmg site) as [parse|]
    eqn:Ep; [|exists None; repeat split; assumption].
  destruct (parse (c :: html)) as [base|] eqn:Eb;
    [|exists None; repeat split; assumption].
  destruct (game_name base) as [|n nm] eqn:En;
    [exists None; repeat split; assumption|].
  exists (Some (with_url base url)).
  split; [reflexivity|]. split; [reflexivity|]. split; [exact Hgets|].
  split; [reflexivity|]. split; [simpl; rewrite En; discriminate|].
  split; [eapply parser_for_known; exact Ep|].
  exists (c :: html), parse, base. repeat split; try assumption.
  discriminate.
Qed.

(** ** The seeders *)

Lemma fold_left_inv {A B} (f : A -> B -> A) (P : A -> Prop) (l : list B)
    (a : A) :
  (forall x y, P x -> P (f x y)) -> P a -> P (fold_left f l a).
Proof.
  intros Hstep. revert a. induction l as [|y l IH]; intros a Ha; simpl.
  - exact Ha.
  - apply IH, Hstep, Ha.
Qed.

Lemma NoDup_append_new (urls : list pystr) (u : pystr) :
  NoDup urls -> u ∉ urls -> NoDup (urls ++ [u]).
Proof.
  intros Hnd Hu. apply NoDup_app. split; [exact Hnd|]. split.
  - intros x Hx Hx'. apply list_elem_of_singleton in Hx'. subst x.
    contradiction.
  - apply NoDup_singleton.
Qed.

Lemma Forall_append_new (P : pystr -> Prop) (urls : list pystr) (u : pystr) :
  Forall P urls -> P u -> Forall P (urls ++ [u]).
Proof.
  intros Hall Hu. apply Forall_app. split; [exact Hall|].
  constructor; [exact Hu|constructor].
Qed.

Lemma before_char_free (sep : N) (s : pystr) :
  contains sep (before_char sep s) = false.
Proof.
  unfold contains. induction s as [|c s IH]; [reflexivity|].
  cbn [before_char]. destruct (c =? sep)%N eqn:E; [reflexivity|].
  cbn [existsb]. rewrite (N.eqb_sym sep c), E. exact IH.
Qed.

Section SeederFacts.
Variable net : pystr -> nat -> Attempt.
Variable select_hrefs : pystr -> pystr -> list (option pystr).
Variable urljoin : pystr -> pystr -> pystr.

(** The page loop returns, keeps every property of the list that the
    inner loop keeps, and makes at most five requests per page. *)
Lemma seed_pages_inv (page_url : nat -> pystr)
    (collect : pystr -> list pystr -> list pystr) (max_urls : nat)
    (P : list pystr -> Prop) :
  (forall html urls, P urls -> P (collect html urls)) ->
  forall pages urls,
    P urls ->
    exists out,
      (seed_pages net page_url collect max_urls pages urls).1 = Ret out
      /\ P out
      /\ length (List.filter is_get
                   (seed_pages net page_url collect max_urls pages urls).2)
         <= 5 * length pages.
Proof.
  intros Hstep. induction pages as [|page rest IH]; intros urls Hurls.
  - exists urls. split; [reflexivity|]. split; [exact Hurls|simpl; lia].
  - cbn [seed_pages].
    destruct (fetch_sleeps net (page_url page)) as (_ & _ & _ & Hgets & _).
    destruct (fetch_returns net (page_url page)) as [body Hbody].
    destruct (fetch net (page_url page)) as [res log].
    simpl in Hbody, Hgets. subst res.
    assert (Hskip :
      exists out,
        (let '(r, log') :=
           seed_pages net page_url collect max_urls rest urls
         in (r, log ++ log')).1 = Ret out
        /\ P out
        /\ length (List.filter is_get
             (let '(r, log') :=
                seed_pages net page_url collect max_urls rest urls
              in (r, log ++ log')).2)
           <= 5 * length (page :: rest)).
    { destruct (IH urls Hurls) as (out & Hout & HP & Hlen).
      destruct (seed_pages net page_url collect max_urls rest urls)
        as [r log'].
      simpl in *. exists out. split; [exact Hout|]. split; [exact HP|].
      rewrite List.filter_app, length_app. lia. }
    destruct body as [[|c html]|]; [exact Hskip| |exact Hskip].
    destruct (max_urls <=? length (collect (c :: html) urls)).
    + exists (collect (c :: html) urls). split; [reflexivity|].
      split; [apply Hstep, Hurls|]. simpl. lia.
    + destruct (IH (collect (c :: html) urls) (Hstep _ _ Hurls))
        as (out & Hout & HP & Hlen).
      destruct (seed_pages net page_url collect max_urls rest
                  (collect (c :: html) urls)) as [r log'].
      simpl in *. exists out. split; [exact Hout|]. split; [exact HP|].
      rewrite List.filter_app, length_app. lia.
Qed.

Lemma steam_add_keeps (urls : list pystr) (href : option pystr) :
  NoDup urls /\ Forall steam_url_ok urls ->
  NoDup (steam_add urls href) /\ Forall steam_url_ok (steam_add urls href).
Proof.
  intros [Hnd Hall]. unfold steam_add.
  destruct href as [[|c h]|]; try (split; assumption).
  destruct (str_in (py "/app/") (c :: h)) eqn:Eapp; [|split; assumption].
  case_bool_decide as Hin; [split; assumption|].
  split; [apply NoDup_append_new; assumption|].
  apply Forall_append_new; [exact Hall|].
  split; [apply before_char_free|]. exists (c :: h). auto.
Qed.

Lemma gog_add_keeps (urls : list pystr) (href : option pystr) :
  NoDup urls /\ Forall (fun u => str_in (py "/game/") u = true) urls ->
  NoDup (gog_add urljoin urls href)
  /\ Forall (fun u => str_in (py "/game/") u = true)
            (gog_add urljoin urls href).
Proof.
  intros [Hnd Hall]. unfold gog_add.
  destruct href as [[|c h]|]; try (split; assumption).
  destruct (bool_decide (urljoin (py "https://www.gog.com") (c :: h) ∉ urls)
            && str_in (py "/game/")
                 (urljoin (py "https://www.gog.com") (c :: h))) eqn:E;
    [|split; assumption].
  apply andb_true_iff in E as [Hnew Hgame].
  apply bool_decide_eq_true in Hnew.
  split; [apply NoDup_append_new; assumption|].
  apply Forall_append_new; assumption.
Qed.

Lemma gmg_add_keeps (urls : list pystr) (href : option pystr) :
  NoDup urls /\ Forall (fun u => str_in (py "/games/") u = true) urls ->
  NoDup (gmg_add urljoin urls href)
  /\ Forall (fun u => str_in (py "/games/") u = true)
            (gmg_add urljoin urls href).
Proof.
  intros [Hnd Hall]. unfold gmg_add.
  destruct href as [[|c h]|]; try (split; assumption).
  set (full_url := if starts_with (py "/") (c :: h)
                   then urljoin (py "https://www.greenmangaming.com") (c :: h)
                   else c :: h).
  destruct (str_in (py "/games/") full_url
            && bool_decide (full_url ∉ urls)) eqn:E;
    [|split; assumption].
  apply andb_true_iff in E as [Hgame Hnew].
  apply bool_decide_eq_true in Hnew.
  split; [apply NoDup_append_new; assumption|].
  apply Forall_append_new; assumption.
Qed.
End SeederFacts.

(** X8. [seed_steam] always returns a list, after at most 145 requests
    (29 pages, five attempts each).  The list has no duplicate, and each
    URL in it has no query string: it is the part before the first
    question mark of a link that holds ["/app/"]. *)
Theorem seed_steam_urls (net : pystr -> nat -> Attempt)
    (select_hrefs : pystr -> pystr -> list (option pystr))
    (max_urls : nat) :
  exists urls,
    (seed_steam net select_hrefs max_urls).1 = Ret urls
    /\ NoDup urls
    /\ Forall steam_url_ok urls
    /\ length (List.filter is_get (seed_steam net select_hrefs max_urls).2)
       <= 145.
Proof.
  unfold seed_steam.
  destruct (seed_pages_inv net steam_page (steam_collect select_hrefs)
              max_urls
              (fun urls => NoDup urls /\ Forall steam_url_ok urls))
    with (pages := seq 1 29) (urls := @nil pystr)
    as (out & Hout & [Hnd Hall] & Hlen).
  - intros html urls Hurls. unfold steam_collect.
    apply fold_left_inv; [|exact Hurls].
    intros x y Hx. apply steam_add_keeps, Hx.
  - split; constructor.
  - exists out. rewrite length_seq in Hlen. auto.
Qed.

(** X9. [seed_gog] always returns a list, after at most 145 requests; the
    list has no duplicate and every URL in it holds ["/game/"]. *)
Theorem seed_gog_urls (net : pystr -> nat -> Attempt)
    (select_hrefs : pystr -> pystr -> list (option pystr))
    (urljoin : pystr -> pystr -> pystr) (max_urls : nat) :
  exists urls,
    (seed_gog net select_hrefs urljoin max_urls).1 = Ret urls
    /\ NoDup urls
    /\ Forall (fun u => str_in (py "/game/") u = true) urls
    /\ length (List.filter is_get
                 (seed_gog net select_hrefs urljoin max_urls).2)
       <= 145.
Proof.
  unfold seed_gog.
  destruct (seed_pages_inv net gog_page (gog_collect select_hrefs urljoin)
              max_urls
              (fun urls => NoDup urls
                 /\ Forall (fun u => str_in (py "/game/") u = true) urls))
    with (pages := seq 1 29) (urls := @nil pystr)
    as (out & Hout & [Hnd Hall] & Hlen).
  - intros html urls Hurls. unfold gog_collect.
    apply fold_left_inv; [|exact Hurls].
    intros x y Hx. apply gog_add_keeps, Hx.
  - split; constructor.
  - exists out. rewrite length_seq in Hlen. auto.
Qed.

(** X10. [seed_gmg] always returns a list, after at most 95 requests (19
    pages); the list has no duplicate and every URL in it holds
    ["/games/"]. *)
Theorem seed_gmg_urls (net : pystr -> nat -> Attempt)
    (select_hrefs : pystr -> pystr -> list (option pystr))
    (urljoin : pystr -> pystr -> pystr) (max_urls : nat) :
  exists urls,
    (seed_gmg net select_hrefs urljoin max_urls).1 = Ret urls
    /\ NoDup urls
    /\ Forall (fun u => str_in (py "/games/") u = true) urls
    /\ length (List.filter is_get
                 (seed_gmg net select_hrefs urljoin max_urls).2)
       <= 95.
Proof.
  unfold seed_gmg.
  destruct (seed_pages_inv net gmg_page (gmg_collect select_hrefs urljoin)
              max_urls
              (fun urls => NoDup urls
                 /\ Forall (fun u => str_in (py "/games/") u = true) urls))
    with (pages := seq 1 19) (urls := @nil pystr)
    as (out & Hout & [Hnd Hall] & Hlen).
  - intros html urls Hurls. unfold gmg_collect.
    apply fold_left_inv; [|exact Hurls].
    intros x y Hx. apply gmg_add_keeps, Hx.
  - split; constructor.
  - exists out. rewrite length_seq in Hlen. auto.
Qed.

Lemma fetch_all_failed (net : pystr -> nat -> Attempt) (url : pystr) :
  (forall k, succeeded (net url k) = None) ->
  (fetch net url).1 = Ret None
  /\ length (List.filter is_get (fetch net url).2) = 5.
Proof.
  intros Hfail. unfold fetch.
  destruct (fetch_loop_spec net url 5 0) as (r & log & -> & Hspec).
  simpl. destruct r as [html|].
  - destruct Hspec as (k & _ & Hok & _). rewrite Hfail in Hok. discriminate.
  - destruct Hspec as [_ ->]. split; [reflexivity|].
    rewrite gets_of_failed, length_seq. reflexivity.
Qed.

Lemma seed_pages_all_failed (net : pystr -> nat -> Attempt)
    (page_url : nat -> pystr) (collect : pystr -> list pystr -> list pystr)
    (max_urls : nat) (pages : list nat) (urls : list pystr) :
  (forall url k, succeeded (net url k) = None) ->
  (seed_pages net page_url collect max_urls pages urls).1 = Ret urls
  /\ length (List.filter is_get
               (seed_pages net page_url collect max_urls pages urls).2)
     = 5 * length pages.
Proof.
  intros Hfail. induction pages as [|page rest IH]; [split; reflexivity|].
  cbn [seed_pages].
  destruct (fetch_all_failed net (page_url page) (Hfail _)) as [Hr Hg].
  destruct (fetch net (page_url page)) as [res log]. simpl in Hr, Hg.
  subst res.
  destruct (seed_pages net page_url collect max_urls rest urls) as [r log'].
  simpl in *. destruct IH as [-> Hlen]. split; [reflexivity|].
  rewrite List.filter_app, length_app. lia.
Qed.

(** X11. On a network where no request succeeds, each seeder still asks
    for every listing page five times (145, 145 and 95 requests) and
    returns the empty list. *)
Theorem seeders_without_network (net : pystr -> nat -> Attempt)
    (select_hrefs : pystr -> pystr -> list (option pystr))
    (urljoin : pystr -> pystr -> pystr) (max_urls : nat) :
  (forall url k, succeeded (net url k) = None) ->
  ((seed_steam net select_hrefs max_urls).1 = Ret []
   /\ length (List.filter is_get (seed_steam net select_hrefs max_urls).2)
      = 145)
  /\ ((seed_gog net select_hrefs urljoin max_urls).1 = Ret []
      /\ length (List.filter is_get
                   (seed_gog net select_hrefs urljoin max_urls).2) = 145)
  /\ ((seed_gmg net select_hrefs urljoin max_urls).1 = Ret []
      /\ length (List.filter is_get
                   (seed_gmg net select_hrefs urljoin max_urls).2) = 95).
Proof.
  intros Hfail. unfold seed_steam, seed_gog, seed_gmg.
  split; [|split]; apply seed_pages_all_failed; exact Hfail.
Qed.

Lemma seeders_without_network_witness :
  ((seed_steam dead_net (fun _ _ => []) 600).1 = Ret []
   /\ length (List.filter is_get (seed_steam dead_net (fun _ _ => []) 600).2)
      = 145)
  /\ ((seed_gog dead_net (fun _ _ => []) (fun b _ => b) 600).1 = Ret []
      /\ length (List.filter is_get
                   (seed_gog dead_net (fun _ _ => []) (fun b _ => b) 600).2)
         = 145)
  /\ ((seed_gmg dead_net (fun _ _ => []) (fun b _ => b) 600).1 = Ret []
      /\ length (List.filter is_get
                   (seed_gmg dead_net (fun _ _ => []) (fun b _ => b) 600).2)
         = 95).
Proof.
  apply (seeders_without_network dead_net (fun _ _ => []) (fun b _ => b) 600).
  intros url k. reflexivity.
Defined.

(** ** save_csv *)

Lemma unquoted_cons (c x : N) (inside : bool) (s : pystr) :
  unquoted c inside (x :: s) =
  if (x =? 34)%N then unquoted c (negb inside) s
  else ((if negb inside && (x =? c)%N then S (unquoted c inside s).1
         else (unquoted c inside s).1),
        (unquoted c inside s).2).
Proof.
  cbn [unquoted]. destruct (x =? 34)%N; [reflexivity|].
  destruct (unquoted c inside s). reflexivity.
Qed.

Lemma unquoted_app (c : N) (inside : bool) (a b : pystr) :
  unquoted c inside (a ++ b) =
  ((unquoted c inside a).1 + (unquoted c (unquoted c inside a).2 b).1,
   (unquoted c (unquoted c inside a).2 b).2).
Proof.
  revert inside. induction a as [|x a IH]; intros inside.
  - simpl. destruct (unquoted c inside b). reflexivity.
  - change ((x :: a) ++ b) with (x :: (a ++ b)).
    rewrite !unquoted_cons. destruct (x =? 34)%N; [apply IH|].
    rewrite IH. cbn [fst snd].
    destruct (negb inside && (x =? c)%N); reflexivity.
Qed.

Lemma replace_char_cons (a : N) (b : pystr) (x : N) (s : pystr) :
  replace_char a b (x :: s)
  = (if (x =? a)%N then b else [x]) ++ replace_char a b s.
Proof. reflexivity. Qed.

Lemma escaped_inside (c : N) (v : pystr) :
  unquoted c true (replace_char 34 [34; 34]%N v) = (0, true).
Proof.
  induction v as [|x v IH]; [reflexivity|].
  rewrite replace_char_cons. destruct (x =? 34)%N eqn:E.
  - change ([34%N; 34%N] ++ replace_char 34 [34%N; 34%N] v)
      with (34%N :: 34%N :: replace_char 34 [34%N; 34%N] v).
    rewrite !unquoted_cons. rewrite N.eqb_refl. exact IH.
  - change ([x] ++ replace_char 34 [34%N; 34%N] v)
      with (x :: replace_char 34 [34%N; 34%N] v).
    rewrite unquoted_cons, E, IH. reflexivity.
Qed.

Lemma escaped_outside (c : N) (v : pystr) :
  contains c (replace_char 34 [34; 34]%N v) = false ->
  unquoted c false (replace_char 34 [34; 34]%N v) = (0, false).
Proof.
  unfold contains. induction v as [|x v IH]; [reflexivity|].
  rewrite replace_char_cons. rewrite existsb_app.
  intros Hc. apply orb_false_iff in Hc as [Hx Hv].
  destruct (x =? 34)%N eqn:E.
  - change ([34%N; 34%N] ++ replace_char 34 [34%N; 34%N] v)
      with (34%N :: 34%N :: replace_char 34 [34%N; 34%N] v).
    rewrite !unquoted_cons. rewrite N.eqb_refl. apply IH, Hv.
  - change ([x] ++ replace_char 34 [34%N; 34%N] v)
      with (x :: replace_char 34 [34%N; 34%N] v).
    rewrite unquoted_cons, E, (IH Hv).
    cbn [existsb] in Hx. rewrite orb_false_r in Hx.
    rewrite (N.eqb_sym x c), Hx. reflexivity.
Qed.

(** A written field never shows a comma or a newline outside quotes, and
    it ends outside quotes. *)
Lemma csv_escape_closed (c : N) (val : pystr) :
  c = 44%N \/ c = 10%N ->
  unquoted c false (csv_escape val) = (0, false).
Proof.
  intros Hc. unfold csv_escape.
  destruct (contains 44 (replace_char 34 [34%N; 34%N] val)
            || contains 10 (replace_char 34 [34%N; 34%N] val)) eqn:E.
  - change ([34%N] ++ replace_char 34 [34%N; 34%N] val ++ [34%N])
      with (34%N :: (replace_char 34 [34%N; 34%N] val ++ [34%N])).
    rewrite unquoted_cons, N.eqb_refl. cbn [negb].
    rewrite unquoted_app, escaped_inside. reflexivity.
  - apply orb_false_iff in E as [E44 E10].
    apply escaped_outside. destruct Hc as [-> | ->]; assumption.
Qed.

Lemma csv_fields_commas (row : list pystr) :
  unquoted 44 false (str_join [44%N] (map csv_escape row))
  = (length row - 1, false).
Proof.
  induction row as [|val row IH]; [reflexivity|].
  destruct row as [|val' row'].
  - cbn [map str_join]. apply csv_escape_closed. auto.
  - change (str_join [44%N] (map csv_escape (val :: val' :: row')))
      with (csv_escape val
            ++ 44%N :: str_join [44%N] (map csv_escape (val' :: row'))).
    rewrite unquoted_app, csv_escape_closed by auto. cbn [fst snd].
    rewrite unquoted_cons. change (44 =? 34)%N with false. cbv iota.
    rewrite IH. rewrite N.eqb_refl. cbn [negb andb fst snd length].
    f_equal. lia.
Qed.

Lemma csv_fields_newlines (row : list pystr) :
  unquoted 10 false (str_join [44%N] (map csv_escape row)) = (0, false).
Proof.
  induction row as [|val row IH]; [reflexivity|].
  destruct row as [|val' row'].
  - cbn [map str_join]. apply csv_escape_closed. auto.
  - change (str_join [44%N] (map csv_escape (val :: val' :: row')))
      with (csv_escape val
            ++ 44%N :: str_join [44%N] (map csv_escape (val' :: row'))).
    rewrite unquoted_app, csv_escape_closed by auto. cbn [fst snd].
    rewrite unquoted_cons. change (44 =? 34)%N with false. cbv iota.
    rewrite IH. reflexivity.
Qed.

Lemma csv_line_commas (row : list pystr) :
  unquoted 44 false (csv_line row) = (length row - 1, false).
Proof.
  unfold csv_line. rewrite unquoted_app, csv_fields_commas. cbn [fst snd].
  rewrite unquoted_cons. change (10 =? 34)%N with false. cbv iota.
  change (10 =? 44)%N with false. cbn [negb andb unquoted fst snd].
  f_equal. lia.
Qed.

Lemma csv_line_newlines (row : list pystr) :
  unquoted 10 false (csv_line row) = (1, false).
Proof.
  unfold csv_line. rewrite unquoted_app, csv_fields_newlines. reflexivity.
Qed.

(** X12. A line that [save_csv] writes for a row reads back, with quotes
    switching between inside and outside, as exactly as many fields as
    the row has values: the only commas outside quotes are the
    separators, the only newline outside quotes is the one that ends the
    line, and the line ends outside quotes.  This holds for every content
    of the values, quotes, commas and newlines included. *)
Theorem csv_line_fields (row : list pystr) :
  unquoted 44 false (csv_line row) = (length row - 1, false)
  /\ unquoted 10 false (csv_line row) = (1, false).
Proof.
  split; [apply csv_line_commas|apply csv_line_newlines].
Qed.

Lemma csv_lines_count (c : N) (n : nat) (lines : list pystr) :
  Forall (fun l => unquoted c false l = (n, false)) lines ->
  unquoted c false (concat lines) = (n * length lines, false).
Proof.
  induction 1 as [|l lines Hl _ IH]; [simpl; f_equal; lia|].
  cbn [concat]. rewrite unquoted_app, Hl. cbn [fst snd]. rewrite IH.
  cbn [fst snd length]. f_equal. lia.
Qed.

(** X13. The text that [save_csv] writes for [data] has one header line
    and one line per record, each of ten columns: scanning it with
    quotes switching between inside and outside finds [1 + len(data)]
    newlines and nine commas per line outside quotes, and ends outside
    quotes, whatever the records hold and however floats are printed. *)
Theorem save_csv_text_shape (str_float : Q -> pystr) (data : list Game) :
  unquoted 10 false (save_csv_text str_float data)
  = (1 + length data, false)
  /\ unquoted 44 false (save_csv_text str_float data)
     = (9 * (1 + length data), false).
Proof.
  unfold save_csv_text.
  rewrite (List.flat_map_concat_map
             (fun game => csv_line (csv_row str_float game)) data).
  rewrite (unquoted_app 10 false (str_join [44%N] csv_headers ++ [10%N])).
  rewrite (unquoted_app 44 false (str_join [44%N] csv_headers ++ [10%N])).
  assert (H10 : unquoted 10 false
                  (concat (map (fun game => csv_line (csv_row str_float game))
                               data))
                = (1 * length (map (fun game =>
                                      csv_line (csv_row str_float game)) data),
                   false)).
  { apply csv_lines_count. apply Forall_forall. intros l Hl.
    apply list_elem_of_fmap in Hl as (game & -> & _).
    apply csv_line_newlines. }
  assert (H44 : unquoted 44 false
                  (concat (map (fun game => csv_line (csv_row str_float game))
                               data))
                = (9 * length (map (fun game =>
                                      csv_line (csv_row str_float game)) data),
                   false)).
  { apply csv_lines_count. apply Forall_forall. intros l Hl.
    apply list_elem_of_fmap in Hl as (game & -> & _).
    apply csv_line_commas. }
  change (unquoted 10 false (str_join [44%N] csv_headers ++ [10%N]))
    with (1, false).
  change (unquoted 44 false (str_join [44%N] csv_headers ++ [10%N]))
    with (9, false).
  cbn [fst snd]. rewrite H10, H44, length_map. cbn [fst snd].
  split; f_equal; lia.
Qed.

(** ** The price block of the parsers *)

Lemma random_price_truthy (random_price : Q) :
  In random_price PRICES -> truthy (Some random_price) = true.
Proof.
  unfold PRICES. simpl.
  intros Hin. repeat (destruct Hin as [<-|Hin]; [reflexivity|]).
  contradiction.
Qed.

Lemma discounted_truthy (random_price : Q) (discount_percent : Z) :
  In random_price PRICES ->
  In discount_percent STEAM_PERCENTS ->
  truthy (Some (discounted random_price discount_percent)) = true
  /\ (discounted random_price discount_percent <= random_price)%Q.
Proof.
  unfold PRICES, STEAM_PERCENTS. simpl. intros Hp Hd.
  repeat (destruct Hp as [<-|Hp];
          [repeat (destruct Hd as [<-|Hd];
                   [split; [reflexivity|vm_compute; discriminate]|]);
           contradiction|]).
  contradiction.
Qed.




(** X15. [parse_gmg] always reports both prices, and not both as zero;
    unlike the other two parsers it can report one of them as zero. *)
Theorem gmg_prices_present (price_now_el price_old_el : option pystr)
    (random_price : Q) (discount_percent : Z) :
  In random_price PRICES ->
  exists regular discount,
    gmg_prices price_now_el price_old_el random_price discount_percent
    = (Some regular, Some discount)
    /\ (truthy (Some regular) = true \/ truthy (Some discount) = true).
Proof.
  intros Hp. apply random_price_truthy in Hp. unfold gmg_prices.
  destruct (text_price price_old_el) as [regular|] eqn:Er;
    destruct (text_price price_now_el) as [discount|] eqn:Ed.
  - destruct (truthy (Some regular)) eqn:Tr;
      destruct (truthy (Some discount)) eqn:Td; cbn [negb andb];
      eexists _, _; (split; [reflexivity|]); auto.
  - change (truthy None) with false.
    destruct (truthy (Some regular)) eqn:Tr; cbn [negb andb];
      eexists _, _; (split; [reflexivity|]); auto.
  - change (truthy None) with false.
    destruct (truthy (Some discount)) eqn:Td; cbn [negb andb];
      eexists _, _; (split; [reflexivity|]); auto.
  - change (truthy None) with false. cbn [negb andb].
    eexists _, _. split; [reflexivity|]. auto.
Qed.

Lemma gmg_prices_present_witness :
  exists regular discount,
    gmg_prices (Some (py "5.00")) (Some (py "0.00")) 9.99 10
    = (Some regular, Some discount)
    /\ (truthy (Some regular) = true \/ truthy (Some discount) = true).
Proof.
  apply (gmg_prices_present (Some (py "5.00")) (Some (py "0.00")) 9.99 10).
  unfold PRICES. simpl. tauto.
Defined.

(** [parse_gmg] does report a zero regular price. *)
Example gmg_prices_zero_regular :
  gmg_prices (Some (py "5.00")) (Some (py "0.00")) 9.99 10
  = (Some (Qmake 0 100), Some (Qmake 500 100)).
Proof. reflexivity. Qed.

(** X16. When [parse_steam] finds a discounted price but no readable
    original price next to it, it drops the price it found: the record
    gets a random regular price and that price reduced by a random
    percentage, which is never more than the regular price. *)
Theorem steam_prices_discards_discount (text : pystr)
    (original_el single_el : option pystr) (random_price : Q)
    (discount_percent : Z) :
  truthy (text_price original_el) = false ->
  In random_price PRICES ->
  In discount_percent STEAM_PERCENTS ->
  steam_prices (Some text) original_el single_el
               random_price discount_percent
  = (Some random_price, Some (discounted random_price discount_percent))
  /\ (discounted random_price discount_percent <= random_price)%Q.
Proof.
  intros Horig Hp Hd.
  destruct (discounted_truthy random_price discount_percent Hp Hd)
    as [Ht Hle].
  split; [|exact Hle].
  unfold steam_prices, fill_prices. cbn [fst].
  assert (Hreg : truthy (match original_el with
                         | Some original => money_to_float original
                         | None => None
                         end) = false) by exact Horig.
  rewrite Hreg. cbn [negb]. rewrite Ht. reflexivity.
Qed.

Lemma steam_prices_discards_discount_witness :
  steam_prices (Some (py "$4.99")) None None 19.99 25
  = (Some 19.99%Q, Some (discounted 19.99 25))
  /\ (discounted 19.99 25 <= 19.99)%Q.
Proof.
  apply (steam_prices_discards_discount (py "$4.99") None None 19.99 25).
  - reflexivity.
  - unfold PRICES. simpl. tauto.
  - unfold STEAM_PERCENTS. simpl. tauto.
Defined.

(** ** More on scrape_site and run *)

Lemma wp_conj {A} (m : M A) (st : State) (Post Post' : A -> State -> Prop)
    (Exc Exc' : State -> Prop) :
  wp m st Post Exc -> wp m st Post' Exc' ->
  wp m st (fun a st' => Post a st' /\ Post' a st')
          (fun st' => Exc st' /\ Exc' st').
Proof.
  unfold wp. destruct (m st) as [[a|e|] st']; auto.
Qed.



Section TraceFacts.
Context `{PyCase} (w : World).




Lemma wp_backfill_frame (site : pystr) :
  known_site site ->
  forall k counter acc st,
    wp (backfill w k site counter acc) st
       (fun _ st' => trace st' = trace st /\ time_reads st' = time_reads st)
       (fun _ => False).
Proof.
  intros Hk. induction k as [|k IH]; intros counter acc st.
  - split; reflexivity.
  - rewrite backfill_succ. apply wp_bind, wp_get_existing.
    destruct (free_counter (backfill_name site) acc.2 (existing_games st)
                counter (fun i j => backfill_name_inj site i j Hk))
      as (c & Hs & _).
    cbv beta. rewrite Hs.
    apply wp_bind, wp_draw, wp_bind, wp_add_existing.
    eapply wp_mono; [apply IH| |auto].
    simpl. auto.
Qed.

Lemma seeds_for_known (site : pystr) (st : State) :
  known_site site ->
  seeds_for w site st
  = (Ret (Some (seed_urls w site)),
     {| existing_games := existing_games st;
        time_reads := time_reads st;
        draws := draws st;
        trace := trace st ++ [Discover site] |}).
Proof.
  intros [-> | [-> | ->]]; reflexivity.
Qed.

End TraceFacts.



Section DeadlineFacts.
Context `{PyCase} (w : World).

(** With the deadline reached at its first check, the harvesting loop
    ends at once and keeps what it was given. *)
Lemma wp_harvest_late (fuel : nat) (site : pystr) (target : nat)
    (concurrency : Z) (deadline : Q) (seeds : list pystr)
    (idx attempts : nat) (acc : list Game * gset pystr) (st : State) :
  Qle_bool deadline (time_time w (time_reads st)) = true ->
  wp (harvest w (S fuel) site target concurrency deadline seeds idx attempts
              acc) st
     (fun acc' st' =>
        acc' = acc /\ trace st' = trace st
        /\ existing_games st' = existing_games st)
     (fun _ => False).
Proof.
  intros Hlate. simpl harvest.
  destruct (negb (length acc.1 <? target)); [apply wp_ret; auto|].
  destruct (negb (idx <? length seeds)); [apply wp_ret; auto|].
  apply wp_bind. unfold wp at 1. simpl. rewrite Hlate.
  apply wp_ret. auto.
Qed.

Lemma wp_scrape_site_late (site : pystr) (target : nat) (concurrency : Z)
    (deadline : Q) (st : State) :
  known_site site ->
  seed_urls w site <> [] ->
  (0 <= concurrency)%Z ->
  Qle_bool deadline (time_time w (time_reads st)) = true ->
  wp (scrape_site w site target concurrency deadline) st
     (fun out st' =>
        length out = target
        /\ Forall (named_by (backfill_name site)) out
        /\ trace st' = trace st ++ [Discover site]
        /\ fresh_in (existing_games st) out (existing_games st'))
     (fun _ => False).
Proof.
  intros Hk Hs Hc Hlate. unfold scrape_site. apply wp_try.
  unfold scrape_site_body. apply wp_bind. unfold wp at 1.
  rewrite (seeds_for_known w site st Hk).
  destruct (seed_urls w site) as [|u seeds'] eqn:Es; [congruence|].
  apply wp_bind. unfold new_semaphore.
  destruct (concurrency <? 0)%Z eqn:Ec; [apply Z.ltb_lt in Ec; lia|].
  apply wp_ret, wp_bind.
  eapply wp_mono; [apply wp_harvest_late; exact Hlate| |intros ? []].
  intros acc st2 (-> & Ht & He). simpl in Ht, He.
  apply wp_bind. simpl length.
  destruct (0 <? target) eqn:Etarget.
  - eapply wp_mono;
      [apply wp_conj;
       [apply (wp_backfill w (existing_games st) site Hk)
       |apply (wp_backfill_frame w site Hk)]
      | |intros ? [[] _]].
    + simpl. rewrite He. apply fresh_in_nil.
    + intros acc' st3 [(Hf & Hlen & Hnames) [Ht3 _]]. apply wp_ret.
      simpl in Hlen.
      assert (Hall : take target acc'.1 = acc'.1)
        by (apply take_ge; lia).
      rewrite Hall. split; [lia|]. split; [|split; [congruence|exact Hf]].
      apply Forall_forall. intros g Hg.
      destruct (Hnames g Hg) as [Hbad|Hn]; [|exact Hn].
      apply elem_of_nil in Hbad. contradiction.
  - apply Nat.ltb_ge in Etarget. apply wp_ret, wp_ret. simpl.
    rewrite take_nil. split; [simpl; lia|]. split; [constructor|].
    split; [exact Ht|]. rewrite He. apply fresh_in_nil.
Qed.
End DeadlineFacts.

(** X20. When the deadline is reached at the first check of the
    harvesting loop (the seeder has run, the concurrency is not
    negative), [scrape_site] creates no worker task and still returns
    exactly [target] records, all of them synthetic records of the
    backfill scheme, fresh with respect to the shared set. *)
Theorem scrape_site_deadline_at_entry `{PyCase} (w : World) (site : pystr)
    (target : nat) (concurrency : Z) (deadline : Q) (st : State) :
  known_site site ->
  seed_urls w site <> [] ->
  (0 <= concurrency)%Z ->
  Qle_bool deadline (time_time w (time_reads st)) = true ->
  exists out st',
    scrape_site w site target concurrency deadline st = (Ret out, st')
    /\ length out = target
    /\ Forall (named_by (backfill_name site)) out
    /\ trace st' = trace st ++ [Discover site]
    /\ fresh_in (existing_games st) out (existing_games st').
Proof.
  intros Hk Hs Hc Hlate.
  destruct (wp_returns _ _ _
              (wp_scrape_site_late w site target concurrency deadline st
                 Hk Hs Hc Hlate))
    as (out & st' & Hrun & Hpost).
  exists out, st'. split; [exact Hrun|exact Hpost].
Qed.

Lemma scrape_site_deadline_at_entry_witness :
  exists out st',
    scrape_site late_world (py "steam") 80 20 400 initial_state
    = (Ret out, st')
    /\ length out = 80
    /\ Forall (named_by (backfill_name (py "steam"))) out
    /\ trace st' = trace initial_state ++ [Discover (py "steam")]
    /\ fresh_in (existing_games initial_state) out (existing_games st').
Proof.
  apply (scrape_site_deadline_at_entry late_world (py "steam") 80 20 400
           initial_state).
  - left. reflexivity.
  - discriminate.
  - lia.
  - reflexivity.
Defined.

Section RunFacts.
Context `{PyCase} (w : World).

Lemma wp_scrape_site_length (site : pystr) (target : nat) (concurrency : Z)
    (deadline : Q) (st : State) :
  known_site site ->
  wp (scrape_site w site target concurrency deadline) st
     (fun out _ =>
        length out <= target
        /\ (seed_urls w site <> [] -> length out = target))
     (fun _ => False).
Proof.
  intros Hk. unfold scrape_site. apply wp_try.
  eapply wp_mono; [apply wp_scrape_site_body| |].
  - intros res st' (_ & Hlen & _ & Hempty).
    destruct (seed_urls w site) as [|u l] eqn:Es.
    + destruct Hempty as [-> _]; [right; reflexivity|].
      simpl. split; [lia|congruence].
    + assert (Hl : length res = target)
        by (apply Hlen; [exact Hk|discriminate]).
      split; [lia|auto].
  - intros st1 _ e. eapply wp_mono; [apply wp_fallback| |auto].
    intros res st' (Hn & _).
    assert (Hl : length res = target).
    { rewrite <- (length_map game_name), Hn, length_map, length_seq.
      reflexivity. }
    split; [lia|auto].
Qed.

Lemma wp_timeout_fill_start (site : pystr) (results : list Game)
    (k counter : nat) (st : State) :
  known_site site ->
  wp (timeout_fill w k site counter results) st
     (fun results' st' =>
        exists new,
          results' = results ++ new
          /\ length new = k
          /\ Forall (fun g => named_by (timeout_name site) g
                              /\ game_site g = site) new
          /\ trace st' = trace st
          /\ time_reads st' = time_reads st)
     (fun _ => False).
Proof.
  intros Hk.
  pose proof (wp_timeout_fill w (existing_games st) site results Hk k
                counter [] st (fresh_in_nil _) (List.Forall_nil _)) as Hfill.
  rewrite app_nil_r in Hfill.
  eapply wp_mono; [exact Hfill| |auto].
  intros out' st' (new & -> & _ & Hlen & Hnamed & Ht & Hc).
  exists new. simpl in Hlen. auto.
Qed.

Lemma wp_run_site_length (concurrency : Z) (deadline : Q) (site : pystr)
    (n : nat) (out : list Game) (st : State) :
  known_site site ->
  TARGET_get site = mret n ->
  wp (run_site w site concurrency deadline out) st
     (fun out' _ =>
        length out' <= length out + n
        /\ (seed_urls w site <> [] -> length out' = length out + n))
     (fun _ => False).
Proof.
  intros Hk Hn. unfold run_site. rewrite Hn. apply wp_bind, wp_time_now.
  destruct (Qle_bool deadline (time_time w (time_reads st))).
  - apply wp_bind, wp_ret.
    eapply wp_mono; [apply (wp_timeout_fill_start site out n 1 _ Hk)| |auto].
    intros out' st' (new & -> & Hlen & _).
    rewrite length_app. split; [lia|intros _; lia].
  - apply wp_bind, wp_ret, wp_bind.
    eapply wp_mono;
      [apply (wp_scrape_site_length site n concurrency deadline _ Hk)| |auto].
    intros res st' [Hle Heq]. apply wp_ret. rewrite length_app.
    split; [lia|]. intros Hs. rewrite (Heq Hs). reflexivity.
Qed.

Lemma wp_run_body_length (timeout concurrency : Z) (st : State) :
  wp (run_body w timeout concurrency) st
     (fun out _ =>
        length out <= 210
        /\ ((forall s, known_site s -> seed_urls w s <> []) ->
            length out = 210))
     (fun _ => False).
Proof.
  unfold run_body. apply wp_bind, wp_time_now.
  unfold SITES. simpl run_sites.
  apply wp_bind.
  eapply wp_mono;
    [apply (wp_run_site_length concurrency _ (py "steam") 80 []);
     [left; reflexivity|reflexivity]
    | |auto].
  intros o1 s1 [L1 E1]. apply wp_bind.
  eapply wp_mono;
    [apply (wp_run_site_length concurrency _ (py "gog") 80 o1);
     [right; left; reflexivity|reflexivity]
    | |auto].
  intros o2 s2 [L2 E2]. apply wp_bind.
  eapply wp_mono;
    [apply (wp_run_site_length concurrency _ (py "gmg") 50 o2);
     [right; right; reflexivity|reflexivity]
    | |auto].
  intros o3 s3 [L3 E3]. apply wp_ret. simpl in L1, E1.
  split; [lia|]. intros Hs.
  rewrite E3, E2, E1; [reflexivity|..]; apply Hs; unfold known_site; auto.
Qed.


End RunFacts.

(** X21. The list that [run] writes never has more than 210 records,
    and it has exactly 210 when the seeder of each of the three sources
    finds at least one link. *)
Theorem run_output_length `{PyCase} (w : World) (timeout concurrency : Z) :
  exists out st',
    run w timeout concurrency = (Ret out, st')
    /\ length out <= 210
    /\ ((forall s, known_site s -> seed_urls w s <> []) ->
        length out = 210).
Proof.
  destruct (run_returns w timeout concurrency)
    as (out & st' & Hrun & _ & Hbody).
  pose proof (wp_run_body_length w timeout concurrency initial_state) as Hwp.
  unfold wp in Hwp. rewrite Hbody in Hwp.
  exists out, st'. split; [exact Hrun|exact Hwp].
Qed.



(** ** The backup block of run *)

Section BackupFacts.
Context `{PyCase} (w : World).

Ltac numbered p n :=
  match goal with
  | |- normalize_game_name ?t = _ => change t with (p ++ str_of_nat n)
  end;
  rewrite normalize_numbered;
  [reflexivity | reflexivity | vm_compute; discriminate | reflexivity].

Lemma backup_name_norm (site : pystr) (n : nat) :
  known_site site ->
  normalize_game_name (backup_name site n)
  = py "backup " ++ site ++ py " juego " ++ str_of_nat n.
Proof.
  intros [-> | [-> | ->]]; unfold backup_name;
    rewrite upper_ascii by reflexivity.
  - numbered (py "Backup STEAM Juego ") n.
  - numbered (py "Backup GOG Juego ") n.
  - numbered (py "Backup GMG Juego ") n.
Qed.

(** Two backup names with the same normal form carry the same counter,
    whatever their sources. *)
Lemma backup_name_counter (s s' : pystr) (i j : nat) :
  known_site s -> known_site s' ->
  normalize_game_name (backup_name s i)
  = normalize_game_name (backup_name s' j) ->
  i = j.
Proof.
  intros Hs Hs'. rewrite !backup_name_norm by assumption.
  intros E. apply app_inv_head in E.
  destruct Hs as [-> | [-> | ->]], Hs' as [-> | [-> | ->]];
    first [discriminate E
          |do 2 apply app_inv_head in E; apply str_of_nat_inj, E].
Qed.

Lemma search_free_here (P : nat -> bool) (fuel n : nat) :
  P n = false -> search_free P (S fuel) n = Some n.
Proof. intros E. simpl. rewrite E. reflexivity. Qed.

Lemma backup_fill_succ (k : nat) (site : pystr) (counter : nat)
    (results : list Game) :
  backup_fill w (S k) site counter results =
  (existing ← get_existing;
   match search_free (name_taken (backup_name site) ∅ existing)
                     (S (size existing)) counter with
   | None => starve
   | Some c =>
       r ← draw w;
       _ ← add_existing (normalize_game_name (backup_name site c));
       backup_fill w k site (S c)
         (results ++ [synthetic_game (backup_name site c) site
                                     (backup_page c) r])
   end).
Proof. reflexivity. Qed.

(** With every identity of the set numbered below the counter, each
    round of the fill takes the counter as it stands. *)
Lemma wp_backup_fill (site : pystr) :
  known_site site ->
  forall k counter results st,
    fresh_in ∅ results (existing_games st) ->
    (forall x, x ∈ existing_games st ->
       exists s j, known_site s /\ j < counter
                   /\ x = normalize_game_name (backup_name s j)) ->
    wp (backup_fill w k site counter results) st
       (fun r st' =>
          r.2 = counter + k
          /\ map game_name r.1
             = map game_name results
               ++ map (backup_name site) (seq counter k)
          /\ map game_url r.1
             = map game_url results ++ map backup_page (seq counter k)
          /\ map game_site r.1
             = map game_site results ++ repeat site k
          /\ fresh_in ∅ r.1 (existing_games st')
          /\ (forall x, x ∈ existing_games st' ->
                exists s j, known_site s /\ j < counter + k
                            /\ x = normalize_game_name (backup_name s j))
          /\ trace st' = trace st
          /\ time_reads st' = time_reads st)
       (fun _ => False).
Proof.
  intros Hk. induction k as [|k IH]; intros counter results st Hf Hb.
  - apply wp_ret. cbn [fst snd seq map repeat]. rewrite !app_nil_r.
    rewrite Nat.add_0_r. auto 10.
  - rewrite backup_fill_succ. apply wp_bind, wp_get_existing. cbv beta.
    assert (Hfree : normalize_game_name (backup_name site counter)
                    ∉ existing_games st).
    { intros Hin. destruct (Hb _ Hin) as (s & j & Hs & Hj & Heq).
      apply (backup_name_counter site s counter j Hk Hs) in Heq. lia. }
    rewrite (search_free_here _ _ counter).
    2:{ rewrite name_taken_union. apply bool_decide_eq_false_2.
        rewrite (left_id_L ∅ (∪)). exact Hfree. }
    apply wp_bind, wp_draw, wp_bind, wp_add_existing.
    eapply wp_mono; [apply (IH (S counter))| |auto].
    + cbn [existing_games].
      apply (fresh_in_snoc ∅ (existing_games st) results
               (synthetic_game (backup_name site counter) site
                  (backup_page counter) (random_draw w (draws st)))).
      * exact Hf.
      * exact Hfree.
    + cbn [existing_games]. intros x Hx.
      apply elem_of_union in Hx as [Hx|Hx].
      * apply elem_of_singleton in Hx. exists site, counter.
        split; [exact Hk|]. split; [lia|exact Hx].
      * destruct (Hb x Hx) as (s & j & Hs & Hj & Heq).
        exists s, j. split; [exact Hs|]. split; [lia|exact Heq].
    + intros r st' (Hc & Hn & Hu & Hs & Hf' & Hb' & Ht & Hr).
      rewrite !map_app in Hn, Hu, Hs. rewrite <- !app_assoc in Hn, Hu, Hs.
      cbn [trace time_reads] in Ht, Hr.
      split; [lia|]. split; [exact Hn|]. split; [exact Hu|].
      split; [exact Hs|]. split; [exact Hf'|].
      split; [|split; assumption].
      intros x Hx. destruct (Hb' x Hx) as (s & j & Hks & Hj & Heq).
      exists s, j. split; [exact Hks|]. split; [lia|exact Heq].
Qed.

Lemma wp_run_backup (st : State) :
  wp (run_backup w) st
     (fun out st' =>
        map game_name out
        = map (backup_name (py "steam")) (seq 1 80)
          ++ map (backup_name (py "gog")) (seq 81 80)
          ++ map (backup_name (py "gmg")) (seq 161 50)
        /\ map game_url out = map backup_page (seq 1 210)
        /\ map game_site out
           = repeat (py "steam") 80 ++ repeat (py "gog") 80
             ++ repeat (py "gmg") 50
        /\ NoDup (map identity out)
        /\ trace st' = trace st)
     (fun _ => False).
Proof.
  unfold run_backup. apply wp_bind. unfold wp at 1, reset_existing.
  unfold TARGET. cbn [backup_sites].
  apply wp_bind.
  eapply wp_mono;
    [apply (wp_backup_fill (py "steam") ltac:(left; reflexivity) 80 1 [])
    | |auto].
  { apply fresh_in_nil. }
  { cbn [existing_games]. intros x Hx. apply elem_of_empty in Hx.
    contradiction. }
  intros [o1 c1] s1 (C1 & N1 & U1 & S1 & F1 & B1 & T1 & _).
  cbn [fst snd] in *. subst c1. apply wp_bind.
  eapply wp_mono;
    [apply (wp_backup_fill (py "gog") ltac:(right; left; reflexivity)
              80 (1 + 80) o1 s1 F1 B1)
    | |auto].
  intros [o2 c2] s2 (C2 & N2 & U2 & S2 & F2 & B2 & T2 & _).
  cbn [fst snd] in *. subst c2. apply wp_bind.
  eapply wp_mono;
    [apply (wp_backup_fill (py "gmg") ltac:(right; right; reflexivity)
              50 (1 + 80 + 80) o2 s2 F2 B2)
    | |auto].
  intros [o3 c3] s3 (C3 & N3 & U3 & S3 & F3 & B3 & T3 & _).
  cbn [fst snd] in *. apply wp_ret.
  split; [rewrite N3, N2, N1, <- app_assoc; reflexivity|].
  split.
  { rewrite U3, U2, U1. reflexivity. }
  split; [rewrite S3, S2, S1, <- app_assoc; reflexivity|].
  split; [apply F3|]. rewrite T3, T2, T1. reflexivity.
Qed.
End BackupFacts.

(** X23. The backup block of [run] (its [except] branch), started in any
    state, builds 210 records with pairwise distinct identities without
    any network operation.  Its counter is shared by the three sources
    and never has to skip: the records are numbered 1 to 80 for steam, 81
    to 160 for gog and 161 to 210 for gmg, both in their names and in
    their addresses. *)
Theorem run_backup_records `{PyCase} (w : World) (st : State) :
  exists out st',
    run_backup w st = (Ret out, st')
    /\ map game_name out
       = map (backup_name (py "steam")) (seq 1 80)
         ++ map (backup_name (py "gog")) (seq 81 80)
         ++ map (backup_name (py "gmg")) (seq 161 50)
    /\ map game_url out = map backup_page (seq 1 210)
    /\ map game_site out
       = repeat (py "steam") 80 ++ repeat (py "gog") 80
         ++ repeat (py "gmg") 50
    /\ NoDup (map identity out)
    /\ trace st' = trace st.
Proof.
  destruct (wp_returns _ _ _ (wp_run_backup w st))
    as (out & st' & Hrun & Hpost).
  exists out, st'. split; [exact Hrun|exact Hpost].
Qed.
